(** * Dog Birthday Guestbook API: a shallow embedding of [main.py]

    The handlers of [main.py] are modelled as pure functions over an
    explicit store.  Python [str] values are sequences of Unicode code
    points, Python [int] values are [Z], and the two SQLite tables are
    finite maps from the integer primary key to the remaining columns,
    each with the counter that [AUTOINCREMENT] keeps in
    [sqlite_sequence].  The clock is an argument of the handlers that
    stamp a row.  An id that does not fit SQLite's 64-bit integers
    makes [delete_guestbook] fail as [sqlite3] does; other storage
    failures (an unwritable file, a full table) are not modelled. *)

From Stdlib Require Import ZArith NArith Ascii String.
From stdpp Require Import base decidable option list sorting gmap strings fin_maps.

Local Open Scope Z_scope.

(** ** Python strings *)

(** A Python [str] is a sequence of code points. *)
Abbreviation str := (list N).

(** An ASCII literal of the source, as a [str]. *)
Definition lit (s : string) : str :=
  N_of_ascii <$> list_ascii_of_string s.

(** The code points for which [str.isspace] holds; these are the ones
    [str.strip()] and [str.split()] treat as whitespace. *)
Definition is_space (c : N) : bool :=
  ((9 <=? c) && (c <=? 13) ||
   (28 <=? c) && (c <=? 32) ||
   (c =? 133) || (c =? 160) || (c =? 5760) ||
   (8192 <=? c) && (c <=? 8202) ||
   (c =? 8232) || (c =? 8233) || (c =? 8239) || (c =? 8287) ||
   (c =? 12288))%N.

(** The separator [" "] of [" ".join]. *)
Definition SP : N := 32%N.

(** [s.lstrip()] *)
Fixpoint lstrip (s : str) : str :=
  match s with
  | [] => []
  | c :: t => if is_space c then lstrip t else s
  end.

(** [s.rstrip()] *)
Definition rstrip (s : str) : str := reverse (lstrip (reverse s)).

(** [s.strip()] *)
Definition strip (s : str) : str := rstrip (lstrip s).

(** The word under construction is closed when a separator or the end
    of the string is met; an empty one yields nothing. *)
Definition flush (cur : str) : list str :=
  match cur with
  | [] => []
  | _ :: _ => [cur]
  end.

(** [s.split()] scans left to right; [cur] is the word read so far. *)
Fixpoint split_from (cur : str) (s : str) : list str :=
  match s with
  | [] => flush cur
  | c :: t =>
      if is_space c then flush cur ++ split_from [] t
      else split_from (cur ++ [c]) t
  end.

(** [s.split()]: the maximal runs of non-whitespace, in order. *)
Definition split (s : str) : list str := split_from [] s.

(** [sep.join(ws)] *)
Fixpoint join (sep : str) (ws : list str) : str :=
  match ws with
  | [] => []
  | [w] => w
  | w :: ws' => w ++ sep ++ join sep ws'
  end.

(** [s or ""] for an optional string. *)
Definition or_empty (s : option str) : str :=
  match s with
  | None => []
  | Some x => x
  end.

(** [def _clean(s): return " ".join((s or "").strip().split())] *)
Definition _clean (s : option str) : str :=
  join [SP] (split (strip (or_empty s))).

(** ** Requests, responses and configuration *)

(** [HTTPException(status_code=..., detail=...)] *)
Record HTTPException := { status_code : Z; detail : string }.

(** A handler either returns its JSON body or raises. *)
Inductive result (A : Type) : Type :=
  | Ok (body : A)
  | Raise (e : HTTPException).
Arguments Ok {A} body.
Arguments Raise {A} e.

(** The parts of a [Request] the handlers read. *)
Record Request := {
  headers : gmap string str;
  query_params : gmap string str
}.

(** Truth value of an optional string: [None] and [""] are false. *)
Definition truthy (o : option str) : bool :=
  match o with
  | Some (_ :: _) => true
  | _ => false
  end.

(** [a or b] *)
Definition py_or (a b : option str) : option str :=
  if truthy a then a else b.

(** [class GuestbookIn(BaseModel)] *)
Module GuestbookIn.
Record t := { name : str; message : str }.

(** The [Field] constraints, checked on the raw input. *)
Definition valid (p : t) : bool :=
  (1 <=? Z.of_nat (length (name p))) && (Z.of_nat (length (name p)) <=? 60) &&
  (1 <=? Z.of_nat (length (message p))) && (Z.of_nat (length (message p)) <=? 800).
End GuestbookIn.

(** [class RSVPIn(BaseModel)] *)
Module RSVPIn.
Record t := {
  name : str;
  contact : str;
  attend : str;
  people : Z;
  memo : option str
}.

Definition valid (p : t) : bool :=
  (1 <=? Z.of_nat (length (name p))) && (Z.of_nat (length (name p)) <=? 60) &&
  (3 <=? Z.of_nat (length (contact p))) && (Z.of_nat (length (contact p)) <=? 80) &&
  (2 <=? Z.of_nat (length (attend p))) && (Z.of_nat (length (attend p)) <=? 10) &&
  (1 <=? people p) && (people p <=? 20) &&
  match memo p with
  | None => true
  | Some m => Z.of_nat (length m) <=? 300
  end.
End RSVPIn.

(** ** The store *)

(** Columns of [guestbook] besides [id]. *)
Record GuestbookRow := {
  g_created_at : str;
  g_name : str;
  g_message : str
}.

(** Columns of [rsvp] besides [id]. *)
Record RSVPRow := {
  r_created_at : str;
  r_name : str;
  r_contact : str;
  r_attend : str;
  r_people : Z;
  r_memo : str
}.

(** A table with an [INTEGER PRIMARY KEY AUTOINCREMENT] column: the rows
    by id, and the largest id handed out so far ([sqlite_sequence]). *)
Record Table (A : Type) := {
  rows : gmap Z A;
  seq : Z
}.
Arguments rows {A} _.
Arguments seq {A} _.

Record Store := {
  guestbook : Table GuestbookRow;
  rsvp : Table RSVPRow
}.

(** The state [_init_db] leaves on a fresh file. *)
Definition empty_table {A} : Table A := {| rows := ∅; seq := 0 |}.
Definition init_db : Store := {| guestbook := empty_table; rsvp := empty_table |}.

(** Largest id present in the table, 0 when there is none above it. *)
Definition max_rowid {A} (m : gmap Z A) : Z :=
  foldr Z.max 0 (map_to_list m).*1.

(** [INSERT INTO t (...) VALUES (...)] followed by
    [SELECT last_insert_rowid()]: the new id is one more than every id
    the table holds or has held. *)
Definition sql_insert {A} (row : A) (t : Table A) : Z * Table A :=
  let new_id := Z.max (seq t) (max_rowid (rows t)) + 1 in
  (new_id, {| rows := <[new_id := row]> (rows t); seq := new_id |}).

(** [DELETE FROM t WHERE id = ?], with [cur.rowcount]. *)
Definition sql_delete {A} (id : Z) (t : Table A) : Z * Table A :=
  ((if rows t !! id is Some _ then 1 else 0),
   {| rows := delete id (rows t); seq := seq t |}).

(** The order of [ORDER BY id DESC]. *)
Definition id_desc {A} (a b : Z * A) : Prop := b.1 ≤ a.1.

Global Instance id_desc_dec {A} : RelDecision (@id_desc A).
Proof. intros a b. unfold id_desc. apply _. Defined.

(** [LIMIT n]: a negative bound means no bound. *)
Definition sql_limit {A} (n : Z) (l : list A) : list A :=
  if n <? 0 then l else take (Z.to_nat n) l.

(** [SELECT id, ... FROM t ORDER BY id DESC LIMIT ?] *)
Definition sql_select_desc {A} (n : Z) (t : Table A) : list (Z * A) :=
  sql_limit n (merge_sort id_desc (map_to_list (rows t))).

(** The integers SQLite stores and [sqlite3] binds are signed 64-bit:
    binding a Python [int] outside this range to a statement raises
    [OverflowError] before the statement runs. *)
Definition in_int64 (z : Z) : bool :=
  (-9223372036854775808 <=? z) && (z <=? 9223372036854775807).

(** Every id of the table fits SQLite's integers. *)
Definition int64_ids {A} (t : Table A) : bool :=
  forallb (λ kv : Z * A, in_int64 kv.1) (map_to_list (rows t)).

(** ** The handlers *)

(** [limit = max(1, min(int(limit or dflt), hi))], where an omitted
    query parameter takes the declared default. *)
Definition clamp_limit (dflt hi : Z) (limit : option Z) : Z :=
  let l := default dflt limit in
  let l := if l =? 0 then dflt else l in
  Z.max 1 (Z.min l hi).

Section Handlers.

(** [ADMIN_PASS = os.getenv("ADMIN_PASS", "0718")] *)
Variable ADMIN_PASS : str.

Definition Unauthorized : HTTPException :=
  {| status_code := 401; detail := "Unauthorized" |}.
Definition NotFound : HTTPException :=
  {| status_code := 404; detail := "Not found" |}.
Definition BadAttend : HTTPException :=
  {| status_code := 400; detail := "attend must be yes/maybe/no" |}.

(** What the server answers when a handler lets an exception other
    than [HTTPException] escape. *)
Definition InternalServerError : HTTPException :=
  {| status_code := 500; detail := "Internal Server Error" |}.

(** [p = request.headers.get("x-admin-pass") or
        request.query_params.get("pass")] *)
Definition admin_token (request : Request) : option str :=
  py_or (headers request !! "x-admin-pass"%string)
        (query_params request !! "pass"%string).

(** [if not p or p != ADMIN_PASS: raise HTTPException(401)] *)
Definition _admin_guard (request : Request) : result unit :=
  let p := admin_token request in
  if negb (truthy p) || negb (bool_decide (p = Some ADMIN_PASS))
  then Raise Unauthorized
  else Ok tt.

Definition create_guestbook (payload : GuestbookIn.t) (now : str)
    (st : Store) : result Z * Store :=
  let name := _clean (Some (GuestbookIn.name payload)) in
  let msg := _clean (Some (GuestbookIn.message payload)) in
  let '(new_id, g) :=
    sql_insert {| g_created_at := now; g_name := name; g_message := msg |}
               (guestbook st) in
  (Ok new_id, {| guestbook := g; rsvp := rsvp st |}).

Definition list_guestbook (limit : option Z) (st : Store)
    : result (list (Z * GuestbookRow)) * Store :=
  let limit := clamp_limit 100 500 limit in
  let rows := sql_select_desc limit (guestbook st) in
  (Ok rows, st).

(** [c.execute("DELETE ...", (int(item_id),))] raises [OverflowError]
    for an [item_id] that does not fit SQLite's integers: nothing has
    run, the connection is closed and the store is as it was. *)
Definition delete_guestbook (item_id : Z) (request : Request)
    (st : Store) : result unit * Store :=
  match _admin_guard request with
  | Raise e => (Raise e, st)
  | Ok _ =>
      if negb (in_int64 item_id) then (Raise InternalServerError, st)
      else
        let '(rowcount, g) := sql_delete item_id (guestbook st) in
        let st' := {| guestbook := g; rsvp := rsvp st |} in
        if rowcount <=? 0 then (Raise NotFound, st') else (Ok tt, st')
  end.

(** [attend not in ("yes", "maybe", "no")] is the negation of this. *)
Definition attend_ok (attend : str) : bool :=
  bool_decide (attend = lit "yes") ||
  bool_decide (attend = lit "maybe") ||
  bool_decide (attend = lit "no").

Definition create_rsvp (payload : RSVPIn.t) (now : str)
    (st : Store) : result Z * Store :=
  let name := _clean (Some (RSVPIn.name payload)) in
  let contact := _clean (Some (RSVPIn.contact payload)) in
  let attend := _clean (Some (RSVPIn.attend payload)) in
  let memo := _clean (Some (or_empty (RSVPIn.memo payload))) in
  let people := RSVPIn.people payload in
  if negb (attend_ok attend) then (Raise BadAttend, st)
  else
    let '(new_id, r) :=
      sql_insert {| r_created_at := now; r_name := name;
                    r_contact := contact; r_attend := attend;
                    r_people := people; r_memo := memo |}
                 (rsvp st) in
    (Ok new_id, {| guestbook := guestbook st; rsvp := r |}).

Definition list_rsvp (request : Request) (limit : option Z) (st : Store)
    : result (list (Z * RSVPRow)) * Store :=
  match _admin_guard request with
  | Raise e => (Raise e, st)
  | Ok _ =>
      let limit := clamp_limit 300 1000 limit in
      let rows := sql_select_desc limit (rsvp st) in
      (Ok rows, st)
  end.

End Handlers.

(** ** Sequences of requests *)

(** One request to the API. *)
Inductive Call :=
  | CreateGuestbook (payload : GuestbookIn.t) (now : str)
  | ListGuestbook (limit : option Z)
  | DeleteGuestbook (item_id : Z) (request : Request)
  | CreateRSVP (payload : RSVPIn.t) (now : str)
  | ListRSVP (request : Request) (limit : option Z).

(** The store a request leaves behind. *)
Definition step (ADMIN_PASS : str) (c : Call) (st : Store) : Store :=
  match c with
  | CreateGuestbook p now => (create_guestbook p now st).2
  | ListGuestbook limit => (list_guestbook limit st).2
  | DeleteGuestbook id rq => (delete_guestbook ADMIN_PASS id rq st).2
  | CreateRSVP p now => (create_rsvp p now st).2
  | ListRSVP rq limit => (list_rsvp ADMIN_PASS rq limit st).2
  end.

(** Requests served one after the other, oldest first. *)
Definition run (ADMIN_PASS : str) (cs : list Call) (st : Store) : Store :=
  foldl (λ st c, step ADMIN_PASS c st) st cs.

(** ** Specification-level definitions *)

(** The normalization as the specification words it: every maximal run
    of whitespace becomes one ASCII space (a whitespace character is
    dropped when another follows it, and the last of a run is replaced
    by a space), and the ends are trimmed. *)
Fixpoint collapse_runs (s : str) : str :=
  match s with
  | [] => []
  | c :: t =>
      if is_space c then
        match t with
        | d :: _ => if is_space d then collapse_runs t else SP :: collapse_runs t
        | [] => [SP]
        end
      else c :: collapse_runs t
  end.

Definition normalize_spec (s : option str) : str :=
  match s with
  | None => []
  | Some x => strip (collapse_runs x)
  end.

(** The token of a request as the specification words it: the header,
    or the query parameter when the header is absent. *)
Definition supplied_token (request : Request) : option str :=
  match headers request !! "x-admin-pass"%string with
  | Some h => Some h
  | None => query_params request !! "pass"%string
  end.

(** The effective limit as the specification words it: the default for
    an absent or zero limit, otherwise the request clamped into
    [[1, hi]]. *)
Definition clamp_spec (dflt hi : Z) (limit : option Z) : Z :=
  match limit with
  | None => dflt
  | Some 0 => dflt
  | Some n => if n <? 1 then 1 else if hi <? n then hi else n
  end.

(** Newest first. *)
Definition newer {A} (a b : Z * A) : Prop := b.1 < a.1.

(** ** Sample data *)

Definition secret : str := lit "0718".

Definition with_header (h : string) : Request :=
  {| headers := {[ "x-admin-pass"%string := lit h ]}; query_params := ∅ |}.

Definition with_query (q : string) : Request :=
  {| headers := ∅; query_params := {[ "pass"%string := lit q ]} |}.

Definition with_both (h q : string) : Request :=
  {| headers := {[ "x-admin-pass"%string := lit h ]};
     query_params := {[ "pass"%string := lit q ]} |}.

Definition ann : GuestbookIn.t :=
  {| GuestbookIn.name := lit "Ann"; GuestbookIn.message := lit "Happy birthday!" |}.

Definition bob : GuestbookIn.t :=
  {| GuestbookIn.name := lit " Bob "; GuestbookIn.message := lit "Woof   woof" |}.

(** A name of one space passes [min_length=1]. *)
Definition blank_entry : GuestbookIn.t :=
  {| GuestbookIn.name := lit " "; GuestbookIn.message := lit "hi" |}.

Definition rsvp_of (attend : string) : RSVPIn.t :=
  {| RSVPIn.name := lit "Cleo"; RSVPIn.contact := lit "cleo@example.org";
     RSVPIn.attend := lit attend; RSVPIn.people := 2; RSVPIn.memo := None |}.

(** The store after Ann and then Bob signed the guestbook. *)
Definition two_entries : Store :=
  (create_guestbook bob (lit "t1") (create_guestbook ann (lit "t0") init_db).2).2.

(** The store after Ann, Bob and Ann again signed the guestbook. *)
Definition three_entries : Store :=
  (create_guestbook ann (lit "t2") two_entries).2.

(** The store after one RSVP. *)
Definition one_rsvp : Store := (create_rsvp (rsvp_of "yes") (lit "t2") two_entries).2.

(** The store after three RSVPs. *)
Definition three_rsvps : Store :=
  (create_rsvp (rsvp_of "no") (lit "t4")
     (create_rsvp (rsvp_of "maybe") (lit "t3") one_rsvp).2).2.


(** ** Normal forms of text *)

(** Every whitespace character is an ASCII space and is followed by a
    character that is not whitespace. *)
Fixpoint tight (s : str) : bool :=
  match s with
  | [] => true
  | c :: t =>
      if is_space c then
        (c =? SP)%N &&
        match t with
        | d :: _ => negb (is_space d)
        | [] => false
        end && tight t
      else tight t
  end.

(** No whitespace at either end, and single ASCII spaces inside. *)
Definition normalized (s : str) : bool :=
  match s with
  | [] => true
  | c :: _ => negb (is_space c)
  end && tight s.

(** The characters of a string that are not whitespace, in order. *)
Definition ink (s : str) : str := List.filter (λ c, negb (is_space c)) s.

(** ** Cross-origin configuration *)

Definition COMMA : N := 44%N.

(** [s.split(sep)] for a one-character [sep]: every occurrence splits
    and empty pieces are kept; [cur] is the piece read so far. *)
Fixpoint split_on_from (sep : N) (cur s : str) : list str :=
  match s with
  | [] => [cur]
  | c :: t =>
      if (c =? sep)%N then cur :: split_on_from sep [] t
      else split_on_from sep (cur ++ [c]) t
  end.

Definition split_on (sep : N) (s : str) : list str := split_on_from sep [] s.

(** Truth value of a string. *)
Definition nonempty (s : str) : bool :=
  match s with
  | [] => false
  | _ :: _ => true
  end.

(** [origins = [o.strip() for o in ALLOWED_ORIGINS.split(",") if o.strip()]] *)
Definition origins (ALLOWED_ORIGINS : str) : list str :=
  strip <$> List.filter (λ o, nonempty (strip o)) (split_on COMMA ALLOWED_ORIGINS).

(** [allow_origins=origins if origins else ["*"]] *)
Definition allow_origins (ALLOWED_ORIGINS : str) : list str :=
  match origins ALLOWED_ORIGINS with
  | [] => [lit "*"]
  | o :: os => o :: os
  end.

(** An origin as [origins] produces them. *)
Definition origin (o : str) : Prop := o ≠ [] ∧ strip o = o ∧ COMMA ∉ o.

(** ** Histories *)

(** Ids of a table lie between 1 and its counter. *)
Definition table_wf {A} (t : Table A) : Prop :=
  0 ≤ seq t ∧ ∀ id, is_Some (rows t !! id) → 1 ≤ id ≤ seq t.

Definition is_create_guestbook (c : Call) : bool :=
  match c with
  | CreateGuestbook _ _ => true
  | _ => false
  end.

(** A [CreateRSVP] request whose [attend] passes the check. *)
Definition is_accepted_rsvp (c : Call) : bool :=
  match c with
  | CreateRSVP p _ => attend_ok (_clean (Some (RSVPIn.attend p)))
  | _ => false
  end.

(** Rows as the handlers write them: text normalized, [attend] in the
    closed set. *)
Definition guestbook_row_ok (r : GuestbookRow) : Prop :=
  normalized (g_name r) = true ∧ normalized (g_message r) = true.

Definition rsvp_row_ok (r : RSVPRow) : Prop :=
  normalized (r_name r) = true ∧ normalized (r_contact r) = true ∧
  normalized (r_memo r) = true ∧
  r_attend r ∈ [lit "yes"; lit "maybe"; lit "no"].

(** The rows of a store are as the handlers write them. *)
Definition rows_ok (st : Store) : Prop :=
  (∀ id r, rows (guestbook st) !! id = Some r → guestbook_row_ok r) ∧
  (∀ id r, rows (rsvp st) !! id = Some r → rsvp_row_ok r).

(** ** Normalization: lemmas *)

Abbreviation blank := (Forall (λ c : N, is_space c = true)).
Abbreviation solid := (Forall (λ c : N, is_space c = false)).

(** A word of the output of [split]: non-empty, without whitespace. *)
Definition word (w : str) : Prop := w ≠ [] ∧ solid w.

Lemma is_space_SP : is_space SP = true.
Proof. reflexivity. Qed.

Lemma lstrip_decomp s : ∃ pre, blank pre ∧ s = pre ++ lstrip s.
Proof.
  induction s as [|c t [pre [Hb Ht]]]; simpl.
  - exists []. by split.
  - destruct (is_space c) eqn:Hc.
    + exists (c :: pre). split; [by constructor|]. simpl. by f_equal.
    + exists []. by split.
Qed.

Lemma lstrip_head s c : head (lstrip s) = Some c → is_space c = false.
Proof.
  induction s as [|d t IH]; simpl; [done|].
  destruct (is_space d) eqn:Hd; [done|]. simpl. congruence.
Qed.

Lemma lstrip_blank s : blank s → lstrip s = [].
Proof. induction 1 as [|c t Hc _ IH]; simpl; [done|]. by rewrite Hc. Qed.

Lemma lstrip_solid_head c t : is_space c = false → lstrip (c :: t) = c :: t.
Proof. intros Hc. simpl. by rewrite Hc. Qed.

Lemma rstrip_decomp s : ∃ suf, blank suf ∧ s = rstrip s ++ suf.
Proof.
  unfold rstrip. destruct (lstrip_decomp (reverse s)) as [pre [Hb He]].
  exists (reverse pre). split.
  - by apply Forall_reverse.
  - rewrite <- reverse_app, <- He. by rewrite reverse_involutive.
Qed.

Lemma rstrip_last s c : last (rstrip s) = Some c → is_space c = false.
Proof.
  unfold rstrip. rewrite last_reverse. apply lstrip_head.
Qed.

Lemma split_from_space cur c t :
  is_space c = true → split_from cur (c :: t) = flush cur ++ split_from [] t.
Proof. intros Hc. simpl. by rewrite Hc. Qed.

Lemma split_from_nonspace cur c t :
  is_space c = false → split_from cur (c :: t) = split_from (cur ++ [c]) t.
Proof. intros Hc. simpl. by rewrite Hc. Qed.

Lemma split_from_blank cur tl : blank tl → split_from cur tl = flush cur.
Proof.
  intros Hb. revert cur. induction Hb as [|c t Hc _ IH]; intros cur; simpl; [done|].
  rewrite Hc, IH. simpl. by rewrite app_nil_r.
Qed.

Lemma split_from_app_blank cur u tl :
  blank tl → split_from cur (u ++ tl) = split_from cur u.
Proof.
  intros Hb. revert cur. induction u as [|c t IH]; intros cur; simpl.
  - by apply split_from_blank.
  - destruct (is_space c); by rewrite IH.
Qed.

Lemma split_from_blank_app pre s :
  blank pre → split_from [] (pre ++ s) = split_from [] s.
Proof.
  induction 1 as [|c t Hc _ IH]; simpl; [done|]. by rewrite Hc.
Qed.

Lemma split_lstrip s : split (lstrip s) = split s.
Proof.
  unfold split. destruct (lstrip_decomp s) as [pre [Hb He]].
  rewrite He at 2. by rewrite split_from_blank_app.
Qed.

Lemma split_rstrip s : split (rstrip s) = split s.
Proof.
  unfold split. destruct (rstrip_decomp s) as [suf [Hb He]].
  rewrite He at 2. by rewrite split_from_app_blank.
Qed.

Lemma split_strip s : split (strip s) = split s.
Proof. unfold strip. by rewrite split_rstrip, split_lstrip. Qed.

Lemma split_from_solid cur w s :
  solid w → split_from cur (w ++ s) = split_from (cur ++ w) s.
Proof.
  intros Hw. revert cur. induction Hw as [|c t Hc _ IH]; intros cur; simpl.
  - by rewrite app_nil_r.
  - rewrite Hc, IH. by rewrite <- app_assoc.
Qed.

Lemma split_from_solid_end cur w :
  solid w → split_from cur w = flush (cur ++ w).
Proof.
  intros Hw. rewrite <- (app_nil_r w) at 1. by rewrite split_from_solid.
Qed.

Lemma flush_word cur : solid cur → Forall word (flush cur).
Proof.
  destruct cur; simpl; [constructor|]. intros H.
  apply Forall_cons. split; [by split | constructor].
Qed.

Lemma split_from_words cur s : solid cur → Forall word (split_from cur s).
Proof.
  revert cur. induction s as [|c t IH]; intros cur Hcur; simpl.
  - by apply flush_word.
  - destruct (is_space c) eqn:Hc.
    + apply Forall_app. split; [by apply flush_word | apply IH; constructor].
    + apply IH. apply Forall_app. split; [done | by repeat constructor].
Qed.

Lemma split_words s : Forall word (split s).
Proof. apply split_from_words. constructor. Qed.

Lemma flush_ne cur : cur ≠ [] → flush cur = [cur].
Proof. by destruct cur. Qed.

Lemma split_join ws : Forall word ws → split (join [SP] ws) = ws.
Proof.
  unfold split. induction 1 as [|w ws [Hne Hw] Hws IH]; [done|].
  destruct ws as [|w' ws'].
  - simpl. rewrite (split_from_solid_end [] w) by done. by apply flush_ne.
  - change (join [SP] (w :: w' :: ws')) with (w ++ [SP] ++ join [SP] (w' :: ws')).
    rewrite split_from_solid by done.
    change ([SP] ++ join [SP] (w' :: ws')) with (SP :: join [SP] (w' :: ws')).
    rewrite split_from_space by apply is_space_SP.
    rewrite IH. simpl. by rewrite (flush_ne w).
Qed.

Lemma clean_split s : _clean s = join [SP] (split (or_empty s)).
Proof. unfold _clean. by rewrite split_strip. Qed.

Lemma split_from_nonempty cur s : cur ≠ [] → split_from cur s ≠ [].
Proof.
  revert cur. induction s as [|c t IH]; intros cur Hcur; simpl.
  - by rewrite flush_ne.
  - destruct (is_space c).
    + by rewrite flush_ne.
    + apply IH. by destruct cur.
Qed.

Lemma join_cons sep w ws :
  ws ≠ [] → join sep (w :: ws) = w ++ sep ++ join sep ws.
Proof. by destruct ws. Qed.

Lemma last_cons_Some {A} (x : A) l y : last l = Some y → last (x :: l) = Some y.
Proof. rewrite last_cons. by intros ->. Qed.

Lemma collapse_space_space c d t :
  is_space c = true → is_space d = true →
  collapse_runs (c :: d :: t) = collapse_runs (d :: t).
Proof. intros Hc Hd. cbn [collapse_runs]. by rewrite Hc, Hd. Qed.

Lemma collapse_space_solid c d t :
  is_space c = true → is_space d = false →
  collapse_runs (c :: d :: t) = SP :: collapse_runs (d :: t).
Proof. intros Hc Hd. cbn [collapse_runs]. by rewrite Hc, Hd. Qed.

Lemma collapse_solid c t :
  is_space c = false → collapse_runs (c :: t) = c :: collapse_runs t.
Proof. intros Hc. cbn [collapse_runs]. by rewrite Hc. Qed.

Lemma collapse_nonempty s : s ≠ [] → collapse_runs s ≠ [].
Proof.
  induction s as [|c t IH]; [done|]. intros _.
  destruct (is_space c) eqn:Hc; [|by rewrite collapse_solid].
  destruct t as [|d t'].
  { cbn [collapse_runs]. by rewrite Hc. }
  destruct (is_space d) eqn:Hd.
  - rewrite collapse_space_space by done. by apply IH.
  - by rewrite collapse_space_solid.
Qed.

(** On a string that neither starts nor ends with whitespace, joining
    the words with single spaces is collapsing the runs. *)
Lemma join_split_from_collapse u cur :
  (∀ c, last u = Some c → is_space c = false) →
  (cur ≠ [] ∨ ∀ c, head u = Some c → is_space c = false) →
  join [SP] (split_from cur u) = cur ++ collapse_runs u.
Proof.
  revert cur. induction u as [|c t IH]; intros cur Hlast Hhead.
  - simpl. rewrite app_nil_r. by destruct cur.
  - assert (Hlast' : ∀ c', last t = Some c' → is_space c' = false).
    { intros c' Hc'. apply Hlast. by apply last_cons_Some. }
    destruct (is_space c) eqn:Hc.
    + assert (Hcur : cur ≠ []).
      { destruct Hhead as [|Hh]; [done|]. specialize (Hh c eq_refl). congruence. }
      destruct t as [|d t'].
      { specialize (Hlast c eq_refl). congruence. }
      rewrite split_from_space by done.
      destruct (is_space d) eqn:Hd.
      * rewrite collapse_space_space by done.
        rewrite <- (IH cur Hlast' (or_introl Hcur)).
        by rewrite !(split_from_space _ d).
      * rewrite collapse_space_solid by done.
        rewrite flush_ne by done. cbn [app].
        rewrite join_cons.
        2:{ rewrite split_from_nonspace by done. by apply split_from_nonempty. }
        rewrite (IH [] Hlast'); [done|].
        right. by intros c' [= <-].
    + rewrite split_from_nonspace, collapse_solid by done.
      rewrite (IH (cur ++ [c]) Hlast').
      * by rewrite <- app_assoc.
      * left. by destruct cur.
Qed.

Lemma lstrip_blank_app pre s : blank pre → lstrip (pre ++ s) = lstrip s.
Proof. induction 1 as [|c t Hc _ IH]; simpl; [done|]. by rewrite Hc. Qed.

Lemma lstrip_id s :
  (∀ c, head s = Some c → is_space c = false) → lstrip s = s.
Proof.
  destruct s as [|c t]; [done|]. intros H. simpl. by rewrite (H c eq_refl).
Qed.

Lemma rstrip_app_blank v suf : blank suf → rstrip (v ++ suf) = rstrip v.
Proof.
  intros Hb. unfold rstrip. rewrite reverse_app.
  rewrite lstrip_blank_app; [done | by apply Forall_reverse].
Qed.

Lemma rstrip_id s :
  (∀ c, last s = Some c → is_space c = false) → rstrip s = s.
Proof.
  intros H. unfold rstrip. rewrite lstrip_id.
  - apply reverse_involutive.
  - intros c Hc. apply H. by rewrite <- head_reverse.
Qed.

Lemma strip_head s c : head (strip s) = Some c → is_space c = false.
Proof.
  unfold strip. intros Hc.
  destruct (rstrip_decomp (lstrip s)) as [suf [Hb He]].
  apply (lstrip_head s). rewrite He.
  destruct (rstrip (lstrip s)); [done|]. done.
Qed.

Lemma strip_last s c : last (strip s) = Some c → is_space c = false.
Proof. apply rstrip_last. Qed.

Lemma collapse_blank s : blank s → s ≠ [] → collapse_runs s = [SP].
Proof.
  induction 1 as [|c t Hc Ht IH]; [done|]. intros _. simpl. rewrite Hc.
  destruct t as [|d t']; [done|].
  apply Forall_cons in Ht as [Hd _]. rewrite Hd. by apply IH.
Qed.

Lemma lstrip_space c t : is_space c = true → lstrip (c :: t) = lstrip t.
Proof. intros Hc. simpl. by rewrite Hc. Qed.

Lemma lstrip_collapse s : lstrip (collapse_runs s) = collapse_runs (lstrip s).
Proof.
  induction s as [|c t IH]; [done|].
  destruct (is_space c) eqn:Hc.
  - rewrite (lstrip_space c) by done.
    destruct t as [|d t'].
    { cbn [collapse_runs]. rewrite Hc. reflexivity. }
    destruct (is_space d) eqn:Hd.
    + by rewrite collapse_space_space.
    + rewrite collapse_space_solid by done.
      by rewrite lstrip_space by apply is_space_SP.
  - rewrite collapse_solid by done. rewrite !lstrip_solid_head by done.
    by rewrite collapse_solid.
Qed.

(** Collapsing a string whose last character is not whitespace,
    followed by a non-empty run of whitespace. *)
Lemma collapse_app_blank u suf :
  (∀ c, last u = Some c → is_space c = false) → blank suf → suf ≠ [] →
  collapse_runs (u ++ suf) = collapse_runs u ++ [SP].
Proof.
  intros Hlast Hb Hne. induction u as [|c t IH].
  - by apply collapse_blank.
  - assert (Hlast' : ∀ c', last t = Some c' → is_space c' = false).
    { intros c' Hc'. apply Hlast. by apply last_cons_Some. }
    specialize (IH Hlast').
    destruct t as [|d t'].
    + specialize (Hlast c eq_refl).
      change ([c] ++ suf) with (c :: suf).
      rewrite !collapse_solid by done. f_equal. by apply collapse_blank.
    + change ((c :: d :: t') ++ suf) with (c :: d :: (t' ++ suf)).
      change ((d :: t') ++ suf) with (d :: (t' ++ suf)) in IH.
      destruct (is_space c) eqn:Hc, (is_space d) eqn:Hd.
      * by rewrite !collapse_space_space.
      * rewrite !collapse_space_solid by done. by rewrite IH.
      * rewrite !(collapse_solid c) by done. by rewrite IH.
      * rewrite !(collapse_solid c) by done. by rewrite IH.
Qed.

Lemma collapse_last u c :
  (∀ c, last u = Some c → is_space c = false) →
  last (collapse_runs u) = Some c → is_space c = false.
Proof.
  revert c. induction u as [|a t IH]; intros c Hlast; [done|].
  assert (Hlast' : ∀ c', last t = Some c' → is_space c' = false).
  { intros c' Hc'. apply Hlast. by apply last_cons_Some. }
  destruct t as [|d t'].
  - specialize (Hlast a eq_refl). rewrite collapse_solid by done.
    simpl. congruence.
  - assert (Hne : collapse_runs (d :: t') ≠ []) by by apply collapse_nonempty.
    assert (Hstep : last (collapse_runs (a :: d :: t')) = last (collapse_runs (d :: t'))).
    { destruct (is_space a) eqn:Ha.
      - destruct (is_space d) eqn:Hd.
        + by rewrite collapse_space_space.
        + rewrite collapse_space_solid by done.
          rewrite last_cons. by destruct (last (collapse_runs (d :: t'))) eqn:E;
            [|apply last_None in E].
      - rewrite collapse_solid by done.
        rewrite last_cons. by destruct (last (collapse_runs (d :: t'))) eqn:E;
            [|apply last_None in E]. }
    rewrite Hstep. by apply IH.
Qed.

Lemma rstrip_collapse s : rstrip (collapse_runs s) = collapse_runs (rstrip s).
Proof.
  destruct (rstrip_decomp s) as [suf [Hb He]].
  assert (Hl : ∀ c, last (rstrip s) = Some c → is_space c = false)
    by apply rstrip_last.
  destruct suf as [|x suf'].
  - rewrite app_nil_r in He. rewrite <- He.
    apply rstrip_id. intros c. apply collapse_last. by rewrite He.
  - rewrite He at 1. rewrite collapse_app_blank by done.
    rewrite rstrip_app_blank by (repeat constructor; apply is_space_SP).
    apply rstrip_id. intros c. by apply collapse_last.
Qed.

Lemma strip_collapse s : strip (collapse_runs s) = collapse_runs (strip s).
Proof. unfold strip. by rewrite lstrip_collapse, rstrip_collapse. Qed.

(** The source's normalization is the specification's. *)
Lemma clean_eq_normalize_spec s : _clean s = normalize_spec s.
Proof.
  destruct s as [x|]; [|done]. unfold _clean, normalize_spec, split. simpl or_empty.
  rewrite strip_collapse.
  rewrite (join_split_from_collapse (strip x) []); [done | apply strip_last |].
  right. apply strip_head.
Qed.

(** ** The handlers on sample data *)

(** The whitespace of [is_space] is the 29 code points for which
    Python's [str.isspace] holds. *)
Lemma is_space_table c :
  is_space c = true ↔
  c ∈ [9; 10; 11; 12; 13; 28; 29; 30; 31; 32; 133; 160; 5760;
       8192; 8193; 8194; 8195; 8196; 8197; 8198; 8199; 8200; 8201; 8202;
       8232; 8233; 8239; 8287; 12288]%N.
Proof.
  unfold is_space.
  rewrite !orb_true_iff, !andb_true_iff, !N.leb_le, !N.eqb_eq.
  rewrite !elem_of_cons, elem_of_nil. lia.
Qed.

Example clean_a_b : _clean (Some (lit "  a   b  ")) = lit "a b".
Proof. reflexivity. Qed.

Example clean_unicode :
  _clean (Some ([31; 97; 32; 12288; 32; 98; 133]%N)) = lit "a b".
Proof. reflexivity. Qed.

Example first_ids :
  (create_guestbook ann (lit "t0") init_db).1 = Ok 1 ∧
  (create_guestbook ann (lit "t9") two_entries).1 = Ok 3.
Proof. vm_compute. by split. Qed.

Example listing :
  (list_guestbook (Some 99999) two_entries).1 =
    Ok [(2, {| g_created_at := lit "t1"; g_name := lit "Bob";
               g_message := lit "Woof woof" |});
        (1, {| g_created_at := lit "t0"; g_name := lit "Ann";
               g_message := lit "Happy birthday!" |})].
Proof. vm_compute. reflexivity. Qed.

Example deleting :
  (delete_guestbook secret 1 (with_header "0718") two_entries).1 = Ok tt ∧
  (delete_guestbook secret 7 (with_header "0718") two_entries).1 = Raise NotFound ∧
  (delete_guestbook secret 1 (with_header "0719") two_entries).1 = Raise Unauthorized.
Proof. vm_compute. by repeat split. Qed.

(** ** Normalization: emptiness *)

Lemma split_from_nil cur s : split_from cur s = [] → cur = [] ∧ blank s.
Proof.
  revert cur. induction s as [|c t IH]; intros cur; simpl.
  - destruct cur; [by split | done].
  - destruct (is_space c) eqn:Hc.
    + intros [Hf Hs]%app_eq_nil. destruct (IH _ Hs) as [_ Hb].
      split; [by destruct cur | by constructor].
    + intros [Hcur _]%IH. by destruct cur.
Qed.

Lemma join_nil ws : Forall word ws → join [SP] ws = [] → ws = [].
Proof.
  destruct 1 as [|w ws [Hne _] _]; [done|].
  destruct ws; simpl; [done|]. by destruct w.
Qed.

(** The normalized string is empty exactly when the input holds
    nothing but whitespace. *)
Lemma clean_nil s : _clean (Some s) = [] ↔ blank s.
Proof.
  rewrite clean_split. simpl or_empty. split.
  - intros H%join_nil; [|apply split_words]. by apply split_from_nil in H as [_ ?].
  - intros Hb. unfold split. by rewrite split_from_blank.
Qed.

(** ** The store: lemmas *)

Section store_lemmas.
Context {A : Type}.
Implicit Types (t : Table A) (m : gmap Z A).

Lemma foldr_max_ge (l : list Z) k : k ∈ l → k ≤ foldr Z.max 0 l.
Proof.
  induction 1 as [x l|x y l _ IH]; simpl; lia.
Qed.

Lemma max_rowid_ge m k : is_Some (m !! k) → k ≤ max_rowid m.
Proof.
  intros [v Hv]. apply foldr_max_ge.
  apply list_elem_of_fmap. exists (k, v). split; [done|].
  by apply elem_of_map_to_list.
Qed.

(** The id of an insertion is not in the table yet. *)
Lemma sql_insert_fresh row t : rows t !! (sql_insert row t).1 = None.
Proof.
  simpl. destruct (rows t !! _) eqn:E; [|done].
  assert (is_Some (rows t !! (Z.max (seq t) (max_rowid (rows t)) + 1))) as H%max_rowid_ge
    by by eexists.
  lia.
Qed.

Lemma sql_insert_seq row t :
  seq (sql_insert row t).2 = (sql_insert row t).1 ∧ seq t < (sql_insert row t).1.
Proof. simpl. split; lia. Qed.

Lemma sql_insert_lookup row t :
  rows (sql_insert row t).2 !! (sql_insert row t).1 = Some row.
Proof. simpl. apply lookup_insert_eq. Qed.

Lemma sql_delete_rowcount id t :
  (sql_delete id t).1 = if rows t !! id is Some _ then 1 else 0.
Proof. done. Qed.

Lemma sql_delete_absent id t : rows t !! id = None → (sql_delete id t).2 = t.
Proof.
  intros H. destruct t as [m s]. unfold sql_delete. simpl in *.
  by rewrite delete_id.
Qed.

Global Instance id_desc_total : Total (@id_desc A).
Proof. intros a b. unfold id_desc. lia. Qed.

Global Instance id_desc_trans : Transitive (@id_desc A).
Proof. intros a b c. unfold id_desc. lia. Qed.

(** A list sorted by descending id without repeated ids is strictly
    descending. *)
Lemma desc_strict (l : list (Z * A)) :
  StronglySorted id_desc l → NoDup l.*1 → StronglySorted newer l.
Proof.
  induction 1 as [|a l Hl IH Ha]; intros Hnd; [constructor|].
  rewrite fmap_cons in Hnd. apply NoDup_cons in Hnd as [Hnotin Hnd].
  constructor; [by apply IH|].
  apply Forall_forall. intros b Hb.
  rewrite Forall_forall in Ha. specialize (Ha b Hb).
  unfold id_desc, newer in *.
  assert (b.1 ≠ a.1); [|lia].
  intros Heq. apply Hnotin. rewrite <- Heq.
  apply list_elem_of_fmap. by exists b.
Qed.

Lemma sql_limit_prefix n (l : list (Z * A)) : ∃ k, sql_limit n l = take k l.
Proof.
  unfold sql_limit. destruct (n <? 0).
  - exists (length l). by rewrite take_ge.
  - by eexists.
Qed.

Lemma sql_limit_length n (l : list (Z * A)) :
  0 ≤ n → Z.of_nat (length (sql_limit n l)) ≤ n.
Proof.
  intros Hn. unfold sql_limit.
  destruct (n <? 0) eqn:E; [lia|]. rewrite length_take. lia.
Qed.

(** [ORDER BY id DESC LIMIT n] returns rows of the table, newest
    first, at most [n] of them. *)
Lemma sql_select_desc_spec n t :
  0 ≤ n →
  StronglySorted newer (sql_select_desc n t) ∧
  Z.of_nat (length (sql_select_desc n t)) ≤ n ∧
  ∀ id row, (id, row) ∈ sql_select_desc n t → rows t !! id = Some row.
Proof.
  intros Hn. unfold sql_select_desc.
  set (l := merge_sort id_desc (map_to_list (rows t))).
  assert (Hperm : l ≡ₚ map_to_list (rows t)) by apply merge_sort_Permutation.
  assert (Hs : StronglySorted newer l).
  { apply desc_strict; [apply StronglySorted_merge_sort; apply _|].
    rewrite Hperm. apply NoDup_fst_map_to_list. }
  destruct (sql_limit_prefix n l) as [k Hk].
  split; [|split].
  - rewrite Hk. rewrite <- (take_drop k l) in Hs.
    by apply StronglySorted_app_1_l in Hs.
  - by apply sql_limit_length.
  - intros id row Hin. rewrite Hk in Hin.
    apply elem_of_map_to_list. rewrite <- Hperm.
    rewrite <- (take_drop k l). apply elem_of_app. by left.
Qed.
End store_lemmas.

Lemma clamp_limit_spec dflt hi limit :
  1 ≤ dflt ≤ hi → clamp_limit dflt hi limit = clamp_spec dflt hi limit.
Proof.
  intros H. unfold clamp_limit, clamp_spec.
  destruct limit as [[|p|p]|]; simpl.
  - lia.
  - destruct (Z.ltb_spec (Z.pos p) 1), (Z.ltb_spec hi (Z.pos p)); lia.
  - destruct (Z.ltb_spec (Z.neg p) 1), (Z.ltb_spec hi (Z.neg p)); lia.
  - destruct (Z.eqb_spec dflt 0); lia.
Qed.

(** ** The handlers: lemmas *)

Lemma store_eta st : {| guestbook := guestbook st; rsvp := rsvp st |} = st.
Proof. by destruct st. Qed.

Lemma truthy_Some (o : option str) : truthy o = true ↔ ∃ c s, o = Some (c :: s).
Proof.
  split.
  - destruct o as [[|c s]|]; simpl; [done| |done]. by exists c, s.
  - by intros (c & s & ->).
Qed.

(** The guard lets a request through exactly when its token is the
    secret and is not empty. *)
Lemma admin_guard_Ok ADMIN_PASS request :
  _admin_guard ADMIN_PASS request = Ok tt ↔
  admin_token request = Some ADMIN_PASS ∧ ADMIN_PASS ≠ [].
Proof.
  unfold _admin_guard. split.
  - destruct (truthy (admin_token request)) eqn:Ht; simpl; [|done].
    case_bool_decide as Heq; simpl; [|done]. intros _. split; [done|].
    rewrite Heq in Ht. by destruct ADMIN_PASS.
  - intros [-> Hne]. destruct ADMIN_PASS; [done|]. simpl.
    by rewrite bool_decide_true.
Qed.

Lemma admin_guard_cases ADMIN_PASS request :
  _admin_guard ADMIN_PASS request = Ok tt ∨
  _admin_guard ADMIN_PASS request = Raise Unauthorized.
Proof. unfold _admin_guard. destruct (_ || _); auto. Qed.

Lemma admin_guard_Raise ADMIN_PASS request :
  ¬ truthy (admin_token request) ∨ admin_token request ≠ Some ADMIN_PASS →
  _admin_guard ADMIN_PASS request = Raise Unauthorized.
Proof.
  unfold _admin_guard. intros [Ht|Hne].
  - by destruct (truthy _).
  - rewrite (bool_decide_false _ Hne). simpl. by rewrite orb_true_r.
Qed.

Lemma create_guestbook_eq payload now st :
  create_guestbook payload now st =
  (Ok (sql_insert {| g_created_at := now;
                     g_name := _clean (Some (GuestbookIn.name payload));
                     g_message := _clean (Some (GuestbookIn.message payload)) |}
                  (guestbook st)).1,
   {| guestbook := (sql_insert {| g_created_at := now;
                     g_name := _clean (Some (GuestbookIn.name payload));
                     g_message := _clean (Some (GuestbookIn.message payload)) |}
                  (guestbook st)).2;
      rsvp := rsvp st |}).
Proof. done. Qed.

Lemma delete_guestbook_authorized ADMIN_PASS item_id request st :
  _admin_guard ADMIN_PASS request = Ok tt →
  in_int64 item_id = true →
  delete_guestbook ADMIN_PASS item_id request st =
  (if rows (guestbook st) !! item_id is Some _ then Ok tt else Raise NotFound,
   {| guestbook := (sql_delete item_id (guestbook st)).2; rsvp := rsvp st |}).
Proof.
  intros Hg Hin. unfold delete_guestbook. rewrite Hg, Hin. simpl.
  by destruct (rows (guestbook st) !! item_id).
Qed.

Lemma delete_guestbook_overflow ADMIN_PASS item_id request st :
  _admin_guard ADMIN_PASS request = Ok tt →
  in_int64 item_id = false →
  delete_guestbook ADMIN_PASS item_id request st = (Raise InternalServerError, st).
Proof. intros Hg Hin. unfold delete_guestbook. by rewrite Hg, Hin. Qed.

Lemma delete_guestbook_unauthorized ADMIN_PASS item_id request st :
  _admin_guard ADMIN_PASS request = Raise Unauthorized →
  delete_guestbook ADMIN_PASS item_id request st = (Raise Unauthorized, st).
Proof. intros Hg. unfold delete_guestbook. by rewrite Hg. Qed.

Lemma delete_guestbook_store ADMIN_PASS item_id request st :
  (delete_guestbook ADMIN_PASS item_id request st).2 = st ∨
  (delete_guestbook ADMIN_PASS item_id request st).2 =
    {| guestbook := (sql_delete item_id (guestbook st)).2; rsvp := rsvp st |}.
Proof.
  destruct (admin_guard_cases ADMIN_PASS request) as [Hg|Hg].
  - destruct (in_int64 item_id) eqn:Hin.
    + right. by rewrite delete_guestbook_authorized.
    + left. by rewrite delete_guestbook_overflow.
  - left. by rewrite delete_guestbook_unauthorized.
Qed.

Lemma list_rsvp_unauthorized ADMIN_PASS request limit st :
  _admin_guard ADMIN_PASS request = Raise Unauthorized →
  list_rsvp ADMIN_PASS request limit st = (Raise Unauthorized, st).
Proof. intros Hg. unfold list_rsvp. by rewrite Hg. Qed.

Lemma list_rsvp_authorized ADMIN_PASS request limit st :
  _admin_guard ADMIN_PASS request = Ok tt →
  list_rsvp ADMIN_PASS request limit st =
  (Ok (sql_select_desc (clamp_limit 300 1000 limit) (rsvp st)), st).
Proof. intros Hg. unfold list_rsvp. by rewrite Hg. Qed.

Lemma create_rsvp_rejected payload now st :
  attend_ok (_clean (Some (RSVPIn.attend payload))) = false →
  create_rsvp payload now st = (Raise BadAttend, st).
Proof. intros H. unfold create_rsvp. by rewrite H. Qed.

Lemma create_rsvp_accepted payload now st :
  attend_ok (_clean (Some (RSVPIn.attend payload))) = true →
  ∃ row, create_rsvp payload now st =
    (Ok (sql_insert row (rsvp st)).1,
     {| guestbook := guestbook st; rsvp := (sql_insert row (rsvp st)).2 |}).
Proof. intros H. unfold create_rsvp. rewrite H. simpl. by eexists. Qed.

Lemma attend_ok_elem attend :
  attend_ok attend = true ↔ attend ∈ [lit "yes"; lit "maybe"; lit "no"].
Proof.
  unfold attend_ok. rewrite !orb_true_iff, !bool_decide_eq_true.
  rewrite !elem_of_cons, elem_of_nil. tauto.
Qed.

(** ** Frame lemmas *)

Lemma step_guestbook_seq ADMIN_PASS c st :
  seq (guestbook st) ≤ seq (guestbook (step ADMIN_PASS c st)).
Proof.
  destruct c as [p now|limit|id rq|p now|rq limit]; simpl.
  - lia.
  - lia.
  - destruct (delete_guestbook_store ADMIN_PASS id rq st) as [-> | ->]; simpl; lia.
  - unfold create_rsvp. destruct (negb _); simpl; lia.
  - unfold list_rsvp. destruct (_admin_guard _ _); simpl; lia.
Qed.

Lemma run_guestbook_seq ADMIN_PASS cs st :
  seq (guestbook st) ≤ seq (guestbook (run ADMIN_PASS cs st)).
Proof.
  revert st. induction cs as [|c cs IH]; intros st; simpl; [lia|].
  etrans; [apply (step_guestbook_seq ADMIN_PASS c)|apply IH].
Qed.

(** ** Properties of the API *)

(** C5. Normalization is a total function of its argument alone: on
    every optional string it returns the string with each maximal run
    of whitespace collapsed to one ASCII space and the ends trimmed, and
    the empty string for an absent argument; ["  a   b  "] gives
    ["a b"]. *)
Theorem clean_normalizes :
  (∀ s : option str, _clean s = normalize_spec s) ∧
  (∀ s : str, _clean (Some s) = strip (collapse_runs s)) ∧
  _clean None = [] ∧
  _clean (Some (lit "  a   b  ")) = lit "a b".
Proof.
  split; [apply clean_eq_normalize_spec|]. split; [|by split].
  intros s. apply (clean_eq_normalize_spec (Some s)).
Qed.

(** C9. Normalization is idempotent. *)
Theorem clean_idempotent (s : option str) :
  _clean (Some (_clean s)) = _clean s.
Proof.
  rewrite (clean_split (Some _)). simpl or_empty.
  rewrite (clean_split s), split_join; [done | apply split_words].
Qed.

(** C1, as the code has it. An entry whose [name] and [message] each
    hold a character that is not whitespace is stored under the
    returned id with a non-empty name and a non-empty message, both
    the normalization of the input. *)
Theorem create_guestbook_stored_nonempty payload now st :
  Exists (λ c, is_space c = false) (GuestbookIn.name payload) →
  Exists (λ c, is_space c = false) (GuestbookIn.message payload) →
  ∃ id row,
    (create_guestbook payload now st).1 = Ok id ∧
    rows (guestbook (create_guestbook payload now st).2) !! id = Some row ∧
    g_name row = _clean (Some (GuestbookIn.name payload)) ∧
    g_message row = _clean (Some (GuestbookIn.message payload)) ∧
    g_name row ≠ [] ∧ g_message row ≠ [].
Proof.
  intros Hn Hm. rewrite create_guestbook_eq. simpl fst. simpl snd.
  eexists _, _. split; [reflexivity|]. split; [apply sql_insert_lookup|].
  cbn [g_name g_message]. repeat split.
  - intros Hb%clean_nil. apply Exists_exists in Hn as (c & Hc & Hs).
    rewrite Forall_forall in Hb. specialize (Hb c Hc). congruence.
  - intros Hb%clean_nil. apply Exists_exists in Hm as (c & Hc & Hs).
    rewrite Forall_forall in Hb. specialize (Hb c Hc). congruence.
Qed.

Lemma ann_is_stored_nonempty :
  ∃ id row,
    (create_guestbook ann (lit "t0") init_db).1 = Ok id ∧
    rows (guestbook (create_guestbook ann (lit "t0") init_db).2) !! id = Some row ∧
    g_name row = _clean (Some (GuestbookIn.name ann)) ∧
    g_message row = _clean (Some (GuestbookIn.message ann)) ∧
    g_name row ≠ [] ∧ g_message row ≠ [].
Proof.
  apply (create_guestbook_stored_nonempty ann (lit "t0") init_db);
    apply Exists_cons_hd; reflexivity.
Defined.

(** C1 fails as stated: a name of one space passes the length
    validation and is stored as the empty string. *)
Lemma create_guestbook_blank_name :
  GuestbookIn.valid blank_entry = true ∧
  (create_guestbook blank_entry (lit "t0") init_db).1 = Ok 1 ∧
  g_name <$> rows (guestbook (create_guestbook blank_entry (lit "t0") init_db).2) !! 1
    = Some [].
Proof. vm_compute. by repeat split. Qed.

(** C2. [create_rsvp] raises exactly when the normalized [attend] is
    not one of ["yes"], ["maybe"], ["no"]; what it raises then is the
    client error 400 and the store is left as it was; ["YES"] is
    rejected. *)
Theorem create_rsvp_attend payload now st :
  ((∃ e, (create_rsvp payload now st).1 = Raise e) ↔
   _clean (Some (RSVPIn.attend payload)) ∉ [lit "yes"; lit "maybe"; lit "no"]) ∧
  (∀ e, (create_rsvp payload now st).1 = Raise e →
        status_code e = 400 ∧ (create_rsvp payload now st).2 = st) ∧
  (RSVPIn.attend payload = lit "YES" →
   create_rsvp payload now st = (Raise BadAttend, st)).
Proof.
  rewrite <- attend_ok_elem.
  destruct (attend_ok (_clean (Some (RSVPIn.attend payload)))) eqn:Hok.
  - destruct (create_rsvp_accepted payload now st Hok) as [row ->].
    simpl. split; [|split].
    + split; [by intros [e ?] | done].
    + done.
    + intros HY. rewrite HY in Hok. by vm_compute in Hok.
  - rewrite (create_rsvp_rejected payload now st Hok). simpl.
    split; [|split].
    + split; [done | by eexists].
    + by intros e [= <-].
    + done.
Qed.

Lemma uppercase_YES_rejected :
  create_rsvp (rsvp_of "YES") (lit "t0") two_entries = (Raise BadAttend, two_entries).
Proof.
  by apply (create_rsvp_attend (rsvp_of "YES") (lit "t0") two_entries).
Defined.

(** C3, as the code has it. The token of a request is its
    [x-admin-pass] header when that is present and not empty, and its
    [pass] query parameter otherwise.  When the token is missing, empty
    or different from the secret, [list_rsvp] raises 401 and leaves the
    store as it was, whatever the store holds. *)
Theorem unauthorized_list_rsvp_no_leak ADMIN_PASS request limit st :
  admin_token request = None ∨ admin_token request = Some [] ∨
    admin_token request ≠ Some ADMIN_PASS →
  list_rsvp ADMIN_PASS request limit st = (Raise Unauthorized, st) ∧
  status_code Unauthorized = 401 ∧
  (∀ st', (list_rsvp ADMIN_PASS request limit st').1 =
          (list_rsvp ADMIN_PASS request limit st).1) ∧
  (∀ c h, headers request !! "x-admin-pass"%string = Some (c :: h) →
          admin_token request = Some (c :: h)) ∧
  (headers request !! "x-admin-pass"%string = None ∨
   headers request !! "x-admin-pass"%string = Some [] →
   admin_token request = query_params request !! "pass"%string).
Proof.
  intros Hbad.
  assert (Hg : _admin_guard ADMIN_PASS request = Raise Unauthorized).
  { apply admin_guard_Raise. destruct Hbad as [H|[H|H]]; [left|left|by right];
      rewrite H; simpl; tauto. }
  split; [by apply list_rsvp_unauthorized|]. split; [done|].
  split; [intros st'; by rewrite !list_rsvp_unauthorized|].
  unfold admin_token, py_or. split.
  - by intros c h ->.
  - by intros [->| ->].
Qed.

Lemma wrong_header_is_unauthorized :
  list_rsvp secret (with_both "0719" "0718") None one_rsvp = (Raise Unauthorized, one_rsvp) ∧
  (list_rsvp secret (with_both "0719" "0718") None init_db).1 =
  (list_rsvp secret (with_both "0719" "0718") None one_rsvp).1.
Proof.
  destruct (unauthorized_list_rsvp_no_leak secret (with_both "0719" "0718") None one_rsvp)
    as (H1 & _ & H2 & _).
  - right. right. vm_compute. congruence.
  - split; [exact H1 | exact (H2 init_db)].
Defined.

(** C3 fails as stated: with an empty header and the secret in the
    query parameter, the header is present and is not the secret, yet
    the rows are returned. *)
Lemma list_rsvp_empty_header :
  supplied_token (with_both "" "0718") = Some [] ∧
  bool_decide (supplied_token (with_both "" "0718") = Some secret) = false ∧
  (list_rsvp secret (with_both "" "0718") None one_rsvp).1 =
    Ok (map_to_list (rows (rsvp one_rsvp))) ∧
  length (map_to_list (rows (rsvp one_rsvp))) = 1%nat.
Proof. vm_compute. by repeat split. Qed.

(** C4. The limit [list_guestbook] queries with is the requested one
    clamped into [[1, 500]], and 100 when the request gives none or
    zero; for [list_rsvp] the bounds are [[1, 1000]] and the default is
    300.  A limit of 0 or none gives the default, 99999 the maximum. *)
Theorem effective_limit :
  (∀ limit st,
     list_guestbook limit st =
     (Ok (sql_select_desc (clamp_spec 100 500 limit) (guestbook st)), st)) ∧
  (∀ limit, 1 ≤ clamp_spec 100 500 limit ≤ 500) ∧
  (∀ n, n ≠ 0 → clamp_spec 100 500 (Some n) = Z.max 1 (Z.min n 500)) ∧
  clamp_spec 100 500 (Some 0) = 100 ∧ clamp_spec 100 500 None = 100 ∧
  clamp_spec 100 500 (Some 99999) = 500 ∧
  (∀ ADMIN_PASS request limit st,
     _admin_guard ADMIN_PASS request = Ok tt →
     list_rsvp ADMIN_PASS request limit st =
     (Ok (sql_select_desc (clamp_spec 300 1000 limit) (rsvp st)), st)) ∧
  (∀ limit, 1 ≤ clamp_spec 300 1000 limit ≤ 1000) ∧
  (∀ n, n ≠ 0 → clamp_spec 300 1000 (Some n) = Z.max 1 (Z.min n 1000)) ∧
  clamp_spec 300 1000 (Some 0) = 300 ∧ clamp_spec 300 1000 None = 300 ∧
  clamp_spec 300 1000 (Some 99999) = 1000.
Proof.
  assert (Hb : ∀ dflt hi limit, 1 ≤ dflt ≤ hi → 1 ≤ clamp_spec dflt hi limit ≤ hi).
  { intros dflt hi limit H. rewrite <- clamp_limit_spec by done.
    unfold clamp_limit. destruct (_ =? 0); lia. }
  assert (Hn : ∀ dflt hi n, 1 ≤ dflt ≤ hi → n ≠ 0 →
               clamp_spec dflt hi (Some n) = Z.max 1 (Z.min n hi)).
  { intros dflt hi n H Hne. rewrite <- clamp_limit_spec by done.
    unfold clamp_limit. simpl. by destruct (Z.eqb_spec n 0). }
  repeat split; try done; try (apply Hb; lia); try (intros; apply Hn; [lia|done]).
  - intros limit st. unfold list_guestbook.
    by rewrite clamp_limit_spec by lia.
  - intros AP rq limit st Hg.
    rewrite list_rsvp_authorized by done. by rewrite clamp_limit_spec by lia.
Qed.

Lemma limits_zero_and_huge :
  list_guestbook (Some 0) two_entries =
    (Ok (sql_select_desc 100 (guestbook two_entries)), two_entries) ∧
  list_rsvp secret (with_query "0718") (Some 99999) one_rsvp =
    (Ok (sql_select_desc 1000 (rsvp one_rsvp)), one_rsvp).
Proof.
  destruct effective_limit as (Hg & _ & _ & _ & _ & _ & Hr & _).
  split; [apply (Hg (Some 0))|].
  apply (Hr secret (with_query "0718") (Some 99999)). by vm_compute.
Defined.




(** C8. Of two successful [create_guestbook] calls, whatever requests
    are served between them, the later returns the greater id; and the
    id a call returns is not in the table before the call. *)
Theorem guestbook_ids_increase ADMIN_PASS p1 now1 st between p2 now2 :
  ∃ id1 id2,
    (create_guestbook p1 now1 st).1 = Ok id1 ∧
    (create_guestbook p2 now2
       (run ADMIN_PASS between (create_guestbook p1 now1 st).2)).1 = Ok id2 ∧
    id1 < id2 ∧
    rows (guestbook st) !! id1 = None.
Proof.
  rewrite !create_guestbook_eq. cbn [fst snd].
  eexists _, _. split; [reflexivity|]. split; [reflexivity|].
  split; [|apply sql_insert_fresh].
  set (row1 := {| g_created_at := now1 |}).
  set (st1 := {| guestbook := (sql_insert row1 (guestbook st)).2 |}).
  pose proof (run_guestbook_seq ADMIN_PASS between st1) as Hrun.
  destruct (sql_insert_seq row1 (guestbook st)) as [Hseq _].
  change (seq (guestbook st1)) with (seq (sql_insert row1 (guestbook st)).2) in Hrun.
  rewrite Hseq in Hrun.
  match goal with |- _ < (sql_insert ?r ?t).1 =>
    destruct (sql_insert_seq r t) as [_ Hlt] end.
  lia.
Qed.

(** C10. The guestbook handlers leave the rsvp table as it was, the
    RSVP handlers leave the guestbook table as it was, and the two
    listings leave the whole store as it was. *)
Theorem handlers_frame ADMIN_PASS st :
  (∀ payload now, rsvp (create_guestbook payload now st).2 = rsvp st) ∧
  (∀ limit, (list_guestbook limit st).2 = st) ∧
  (∀ item_id request,
     rsvp (delete_guestbook ADMIN_PASS item_id request st).2 = rsvp st) ∧
  (∀ payload now, guestbook (create_rsvp payload now st).2 = guestbook st) ∧
  (∀ request limit, (list_rsvp ADMIN_PASS request limit st).2 = st).
Proof.
  repeat split.
  - intros id rq.
    by destruct (delete_guestbook_store ADMIN_PASS id rq st) as [-> | ->].
  - intros p now. unfold create_rsvp. by destruct (negb _).
  - intros rq limit. destruct (admin_guard_cases ADMIN_PASS rq) as [Hg|Hg].
    + by rewrite list_rsvp_authorized.
    + by rewrite list_rsvp_unauthorized.
Qed.

(** ** Normalization: further lemmas *)

Lemma lstrip_length s : (length (lstrip s) ≤ length s)%nat.
Proof.
  destruct (lstrip_decomp s) as [pre [_ He]]. rewrite He at 2.
  rewrite length_app. lia.
Qed.

Lemma rstrip_length s : (length (rstrip s) ≤ length s)%nat.
Proof.
  destruct (rstrip_decomp s) as [suf [_ He]]. rewrite He at 2.
  rewrite length_app. lia.
Qed.

Lemma strip_length s : (length (strip s) ≤ length s)%nat.
Proof.
  unfold strip. etrans; [apply rstrip_length | apply lstrip_length].
Qed.

Lemma collapse_length s : (length (collapse_runs s) ≤ length s)%nat.
Proof.
  induction s as [|c t IH]; [done|].
  destruct (is_space c) eqn:Hc.
  - destruct t as [|d t'].
    + cbn [collapse_runs]. by rewrite Hc.
    + destruct (is_space d) eqn:Hd.
      * rewrite collapse_space_space by done. simpl length in *. lia.
      * rewrite collapse_space_solid by done. simpl length in *. lia.
  - rewrite collapse_solid by done. simpl length in *. lia.
Qed.

Lemma clean_length s : (length (_clean (Some s)) ≤ length s)%nat.
Proof.
  rewrite clean_eq_normalize_spec. simpl.
  etrans; [apply strip_length | apply collapse_length].
Qed.

Lemma tight_solid w r : solid w → tight (w ++ r) = tight r.
Proof. induction 1 as [|c t Hc _ IH]; simpl; [done|]. by rewrite Hc. Qed.

Lemma tight_join ws : Forall word ws → tight (join [SP] ws) = true.
Proof.
  induction 1 as [|w ws [Hne Hw] Hws IH]; [done|].
  destruct ws as [|w' ws'].
  - simpl. rewrite <- (app_nil_r w). by rewrite tight_solid.
  - rewrite join_cons by done. rewrite tight_solid by done.
    change ([SP] ++ ?x) with (SP :: x). cbn [tight].
    rewrite is_space_SP, IH, N.eqb_refl. simpl.
    apply Forall_cons in Hws as [[Hne' Hw'] _].
    destruct w' as [|c w'']; [done|].
    apply Forall_cons in Hw' as [Hc _].
    destruct ws'; simpl; by rewrite Hc.
Qed.

Lemma join_head ws c :
  Forall word ws → head (join [SP] ws) = Some c → is_space c = false.
Proof.
  destruct 1 as [|w ws [Hne Hw] _]; [done|].
  destruct w as [|d w']; [done|]. apply Forall_cons in Hw as [Hd _].
  destruct ws; simpl; congruence.
Qed.

Lemma clean_normalized s : normalized (_clean s) = true.
Proof.
  rewrite clean_split. unfold normalized.
  rewrite tight_join by apply split_words. rewrite andb_true_r.
  destruct (join [SP] (split (or_empty s))) as [|c t] eqn:E; [done|].
  apply negb_true_iff. apply (join_head (split (or_empty s))).
  - apply split_words.
  - by rewrite E.
Qed.

Lemma tight_collapse s : tight s = true → collapse_runs s = s.
Proof.
  induction s as [|c t IH]; [done|]. cbn [tight].
  destruct (is_space c) eqn:Hc.
  - intros [[Hsp Hnext]%andb_true_iff Ht]%andb_true_iff.
    apply N.eqb_eq in Hsp as ->.
    destruct t as [|d t']; [done|]. apply negb_true_iff in Hnext.
    rewrite collapse_space_solid by done. by rewrite IH.
  - intros Ht. rewrite collapse_solid by done. by rewrite IH.
Qed.

Lemma tight_last s c : tight s = true → last s = Some c → is_space c = false.
Proof.
  induction s as [|a t IH]; [done|]. cbn [tight].
  destruct t as [|d t'].
  - destruct (is_space a) eqn:Ha.
    + by rewrite andb_false_r.
    + intros _ [= <-]. done.
  - rewrite last_cons_cons. destruct (is_space a).
    + intros [_ Ht]%andb_true_iff. by apply IH.
    + apply IH.
Qed.

Lemma normalized_clean s : normalized s = true → _clean (Some s) = s.
Proof.
  intros [Hh Ht]%andb_true_iff.
  rewrite clean_eq_normalize_spec. simpl.
  rewrite tight_collapse by done. unfold strip.
  rewrite lstrip_id.
  - apply rstrip_id. intros c. by apply tight_last.
  - destruct s as [|d t]; [done|]. intros c [= <-]. by apply negb_true_iff.
Qed.

Lemma ink_app s1 s2 : ink (s1 ++ s2) = ink s1 ++ ink s2.
Proof. unfold ink. apply List.filter_app. Qed.

Lemma ink_solid w : solid w → ink w = w.
Proof.
  induction 1 as [|c t Hc _ IH]; [done|]. unfold ink in *. simpl.
  by rewrite Hc, IH.
Qed.

Lemma ink_split_from cur s :
  solid cur → concat (split_from cur s) = cur ++ ink s.
Proof.
  revert cur. induction s as [|c t IH]; intros cur Hcur.
  - simpl. rewrite app_nil_r. destruct cur; simpl; [done|]. by rewrite app_nil_r.
  - destruct (is_space c) eqn:Hc.
    + rewrite split_from_space by done. rewrite concat_app, IH by constructor.
      unfold ink at 2. simpl. rewrite Hc. simpl.
      destruct cur; simpl; [done|]. by rewrite app_nil_r.
    + rewrite split_from_nonspace by done. rewrite IH.
      * unfold ink at 2. simpl. rewrite Hc. simpl. by rewrite <- app_assoc.
      * apply Forall_app. split; [done | by repeat constructor].
Qed.

Lemma ink_join ws : Forall word ws → ink (join [SP] ws) = concat ws.
Proof.
  induction 1 as [|w ws [Hne Hw] Hws IH]; [done|].
  destruct ws as [|w' ws'].
  - simpl. rewrite app_nil_r. by apply ink_solid.
  - rewrite join_cons by done. rewrite !ink_app, IH, ink_solid by done.
    done.
Qed.

Lemma clean_ink s : ink (_clean s) = ink (or_empty s).
Proof.
  rewrite clean_split, ink_join by apply split_words.
  unfold split. by rewrite ink_split_from by constructor.
Qed.

Lemma clean_words s : split (_clean s) = split (or_empty s).
Proof. rewrite clean_split. apply split_join, split_words. Qed.

(** ** Further properties of normalization *)

(** X1. Normalization never lengthens a string. *)
Theorem clean_never_longer (s : option str) :
  (length (_clean s) ≤ length (or_empty s))%nat.
Proof.
  destruct s as [x|]; [apply clean_length|]. simpl. lia.
Qed.

(** X2. A string is left as it is by normalization exactly when it has
    no whitespace at either end and every whitespace character in it is
    a single ASCII space between two other characters; the result of
    normalization is always such a string. *)
Theorem clean_fixed_points :
  (∀ s : str, _clean (Some s) = s ↔ normalized s = true) ∧
  (∀ s : option str, normalized (_clean s) = true).
Proof.
  split; [|apply clean_normalized].
  intros s. split; [|apply normalized_clean].
  intros <-. apply clean_normalized.
Qed.

(** X3. Normalization keeps the characters that are not whitespace, in
    their order, and the words they form. *)
Theorem clean_keeps_words (s : option str) :
  ink (_clean s) = ink (or_empty s) ∧
  split (_clean s) = split (or_empty s).
Proof. split; [apply clean_ink | apply clean_words]. Qed.

(** ** The store: further lemmas *)

Section table_lemmas.
Context {A : Type}.
Implicit Types (t : Table A) (m : gmap Z A).

Lemma foldr_max_le (l : list Z) b :
  0 ≤ b → (∀ k, k ∈ l → k ≤ b) → foldr Z.max 0 l ≤ b.
Proof.
  intros Hb. induction l as [|x l IH]; intros Hl; simpl; [done|].
  apply Z.max_lub.
  - apply Hl. by left.
  - apply IH. intros k Hk. apply Hl. by right.
Qed.

Lemma max_rowid_le m b :
  0 ≤ b → (∀ k, is_Some (m !! k) → k ≤ b) → max_rowid m ≤ b.
Proof.
  intros Hb Hm. apply foldr_max_le; [done|].
  intros k ([k' v] & -> & Hin%elem_of_map_to_list)%list_elem_of_fmap.
  apply Hm. by eexists.
Qed.

(** In a well-formed table the next id is the counter plus one. *)
Lemma sql_insert_next row t : table_wf t → (sql_insert row t).1 = seq t + 1.
Proof.
  intros [H0 Hk]. simpl.
  assert (max_rowid (rows t) ≤ seq t); [|lia].
  apply max_rowid_le; [done|]. intros k Hs. by apply Hk.
Qed.

Lemma sql_insert_wf row t : table_wf t → table_wf (sql_insert row t).2.
Proof.
  intros Hwf. pose proof (sql_insert_next row t Hwf) as Hn.
  destruct Hwf as [H0 Hk].
  destruct (sql_insert_seq row t) as [Hseq _]. unfold table_wf. rewrite Hseq, Hn.
  split; [lia|]. intros id Hs.
  change (rows (sql_insert row t).2)
    with (<[(sql_insert row t).1 := row]> (rows t)) in Hs.
  apply lookup_insert_is_Some in Hs as [Heq|[_ Hs]].
  - lia.
  - specialize (Hk id Hs). lia.
Qed.

Lemma sql_delete_wf id t : table_wf t → table_wf (sql_delete id t).2.
Proof.
  intros [H0 Hk]. split; [done|]. simpl. intros j Hj. apply Hk.
  destruct (decide (id = j)) as [->|Hne].
  - rewrite lookup_delete_eq in Hj. by destruct Hj.
  - by rewrite lookup_delete_ne in Hj.
Qed.

Lemma empty_table_wf : table_wf (@empty_table A).
Proof. split; simpl; [done|]. intros id [x Hx]. by rewrite lookup_empty in Hx. Qed.

(** Every id of the table is at most the id of an insertion. *)
Lemma sql_insert_max row t id :
  is_Some (rows (sql_insert row t).2 !! id) → id ≤ (sql_insert row t).1.
Proof.
  simpl. intros [Heq|[_ Hs]]%lookup_insert_is_Some; [lia|].
  apply max_rowid_ge in Hs. lia.
Qed.

Lemma sorted_rows_spec t :
  StronglySorted newer (merge_sort id_desc (map_to_list (rows t))) ∧
  merge_sort id_desc (map_to_list (rows t)) ≡ₚ map_to_list (rows t).
Proof.
  split; [|apply merge_sort_Permutation].
  apply desc_strict; [apply StronglySorted_merge_sort; apply _|].
  rewrite merge_sort_Permutation. apply NoDup_fst_map_to_list.
Qed.

(** The row just inserted is the first of a listing. *)
Lemma sql_select_desc_insert_head row t n :
  1 ≤ n →
  head (sql_select_desc n (sql_insert row t).2) = Some ((sql_insert row t).1, row).
Proof.
  intros Hn. unfold sql_select_desc.
  destruct (sorted_rows_spec (sql_insert row t).2) as [Hs Hp].
  set (l := merge_sort id_desc (map_to_list (rows (sql_insert row t).2))) in *.
  assert (Hin : ((sql_insert row t).1, row) ∈ l).
  { rewrite Hp. apply elem_of_map_to_list. apply sql_insert_lookup. }
  assert (Hhead : head l = Some ((sql_insert row t).1, row)).
  { destruct l as [|h tl]; [by apply elem_of_nil in Hin|].
    apply elem_of_cons in Hin as [<-|Hin]; [done|]. exfalso.
    apply StronglySorted_inv in Hs as [_ Hs].
    rewrite Forall_forall in Hs. specialize (Hs _ Hin).
    assert (Hh : h ∈ map_to_list (rows (sql_insert row t).2)).
    { rewrite <- Hp. by left. }
    destruct h as [k v]. apply elem_of_map_to_list in Hh.
    assert (is_Some (rows (sql_insert row t).2 !! k)) as Hle%sql_insert_max
      by by eexists.
    unfold newer in Hs. simpl in Hs, Hle. lia. }
  unfold sql_limit. destruct (Z.ltb_spec n 0); [done|].
  destruct l as [|h tl]; [done|].
  destruct (Z.to_nat n) eqn:E; [lia|]. done.
Qed.

Lemma sql_select_desc_length n t :
  0 ≤ n →
  Z.of_nat (length (sql_select_desc n t)) = Z.min n (Z.of_nat (size (rows t))).
Proof.
  intros Hn. unfold sql_select_desc, sql_limit.
  destruct (Z.ltb_spec n 0); [lia|].
  rewrite length_take, merge_sort_Permutation, length_map_to_list. lia.
Qed.

(** A row that a listing leaves out is older than every row listed,
    and the listing is full. *)
Lemma sql_select_desc_complete n t id row :
  0 ≤ n → rows t !! id = Some row →
  (id, row) ∈ sql_select_desc n t ∨
  (Z.of_nat (length (sql_select_desc n t)) = n ∧
   ∀ x, x ∈ sql_select_desc n t → id < x.1).
Proof.
  intros Hn Hrow. unfold sql_select_desc, sql_limit.
  destruct (sorted_rows_spec t) as [Hs Hp].
  set (l := merge_sort id_desc (map_to_list (rows t))) in *.
  destruct (Z.ltb_spec n 0); [lia|].
  assert (Hin : (id, row) ∈ l).
  { rewrite Hp. by apply elem_of_map_to_list. }
  rewrite <- (take_drop (Z.to_nat n) l) in Hin, Hs.
  apply elem_of_app in Hin as [Hin|Hin]; [by left|right].
  split.
  - rewrite length_take.
    assert (drop (Z.to_nat n) l ≠ []) as Hd.
    { intros E. rewrite E in Hin. by apply elem_of_nil in Hin. }
    assert (Z.to_nat n < length l)%nat; [|lia].
    destruct (decide (Z.to_nat n < length l)%nat); [done|].
    exfalso. apply Hd. apply drop_ge. lia.
  - intros x Hx.
    by apply (StronglySorted_app_1_elem_of _ _ _ x (id, row)) in Hs.
Qed.
End table_lemmas.

(** C7. For every store and limit, [list_guestbook] returns the newest
    rows of the guestbook table, newest first: the rows are rows of the
    table in strictly descending order of id, there are as many of them
    as the smaller of the effective limit and the size of the table (so
    at most the effective limit), and every row of the table that is
    left out is older than every row returned.  So does [list_rsvp] for
    the rsvp table whenever it returns rows. *)
Theorem lists_newest_first :
  (∀ limit st, ∃ items,
     (list_guestbook limit st).1 = Ok items ∧
     StronglySorted newer items ∧
     Z.of_nat (length items) ≤ clamp_limit 100 500 limit ∧
     Z.of_nat (length items) =
       Z.min (clamp_limit 100 500 limit) (Z.of_nat (size (rows (guestbook st)))) ∧
     (∀ id row, (id, row) ∈ items → rows (guestbook st) !! id = Some row) ∧
     (∀ id row, rows (guestbook st) !! id = Some row →
        (id, row) ∈ items ∨ ∀ x, x ∈ items → id < x.1)) ∧
  (∀ ADMIN_PASS request limit st items,
     (list_rsvp ADMIN_PASS request limit st).1 = Ok items →
     StronglySorted newer items ∧
     Z.of_nat (length items) ≤ clamp_limit 300 1000 limit ∧
     Z.of_nat (length items) =
       Z.min (clamp_limit 300 1000 limit) (Z.of_nat (size (rows (rsvp st)))) ∧
     (∀ id row, (id, row) ∈ items → rows (rsvp st) !! id = Some row) ∧
     (∀ id row, rows (rsvp st) !! id = Some row →
        (id, row) ∈ items ∨ ∀ x, x ∈ items → id < x.1)).
Proof.
  assert (Hall : ∀ A (t : Table A) n, 1 ≤ n →
    StronglySorted newer (sql_select_desc n t) ∧
    Z.of_nat (length (sql_select_desc n t)) ≤ n ∧
    Z.of_nat (length (sql_select_desc n t)) = Z.min n (Z.of_nat (size (rows t))) ∧
    (∀ id row, (id, row) ∈ sql_select_desc n t → rows t !! id = Some row) ∧
    (∀ id row, rows t !! id = Some row →
       (id, row) ∈ sql_select_desc n t ∨ ∀ x, x ∈ sql_select_desc n t → id < x.1)).
  { intros A t n Hn.
    destruct (sql_select_desc_spec n t) as (Hs & Hl & Hin); [lia|].
    split; [done|]. split; [done|].
    split; [apply sql_select_desc_length; lia|]. split; [done|].
    intros id row Hrow.
    destruct (sql_select_desc_complete n t id row) as [?|[_ ?]]; auto. lia. }
  assert (Hpos : ∀ d h l, 1 ≤ clamp_limit d h l).
  { intros. unfold clamp_limit. lia. }
  split.
  - intros limit st. eexists. split; [reflexivity|]. by apply Hall.
  - intros AP rq limit st items.
    destruct (admin_guard_cases AP rq) as [Hg|Hg].
    + rewrite list_rsvp_authorized by done. intros [= <-]. by apply Hall.
    + by rewrite list_rsvp_unauthorized.
Qed.

(** Three rows and a limit of two, in each table. *)
Lemma listings_cut_at_two :
  (∃ items,
     (list_guestbook (Some 2) three_entries).1 = Ok items ∧
     items.*1 = [3; 2] ∧
     StronglySorted newer items ∧
     Z.of_nat (length items) = Z.min 2 3 ∧
     rows (guestbook three_entries) !! 1 =
       Some {| g_created_at := lit "t0"; g_name := lit "Ann";
               g_message := lit "Happy birthday!" |} ∧
     ∀ x, x ∈ items → 1 < x.1) ∧
  (∃ items,
     (list_rsvp secret (with_header "0718") (Some 2) three_rsvps).1 = Ok items ∧
     items.*1 = [3; 2] ∧
     StronglySorted newer items ∧
     Z.of_nat (length items) = Z.min 2 3 ∧
     ∀ x, x ∈ items → 1 < x.1).
Proof.
  destruct lists_newest_first as [Hgb Hrs]. split.
  - destruct (Hgb (Some 2) three_entries) as (items & Hi & Hs & _ & Hlen & _ & Hc).
    exists items. split; [exact Hi|].
    assert (Hids : items.*1 = [3; 2]).
    { vm_compute in Hi. injection Hi as <-. reflexivity. }
    split; [exact Hids|]. split; [exact Hs|]. split; [exact Hlen|].
    assert (Hrow : rows (guestbook three_entries) !! 1 =
       Some {| g_created_at := lit "t0"; g_name := lit "Ann";
               g_message := lit "Happy birthday!" |}) by (vm_compute; reflexivity).
    split; [exact Hrow|].
    destruct (Hc _ _ Hrow) as [Hin|Hold]; [|exact Hold].
    exfalso. apply (list_elem_of_fmap_2 fst) in Hin. rewrite Hids in Hin.
    simpl in Hin. apply elem_of_cons in Hin as [?|Hin]; [done|].
    apply elem_of_cons in Hin as [?|Hin]; [done|]. by apply elem_of_nil in Hin.
  - assert (Hi : (list_rsvp secret (with_header "0718") (Some 2) three_rsvps).1 =
                 Ok (sql_select_desc 2 (rsvp three_rsvps))) by (vm_compute; reflexivity).
    destruct (Hrs secret (with_header "0718") (Some 2) three_rsvps _ Hi)
      as (Hs & _ & Hlen & _ & Hc).
    exists (sql_select_desc 2 (rsvp three_rsvps)). split; [exact Hi|].
    assert (Hids : (sql_select_desc 2 (rsvp three_rsvps)).*1 = [3; 2])
      by (vm_compute; reflexivity).
    split; [exact Hids|]. split; [exact Hs|]. split; [exact Hlen|].
    assert (Hrow : is_Some (rows (rsvp three_rsvps) !! 1)) by (vm_compute; by eexists).
    destruct Hrow as [row Hrow].
    destruct (Hc _ _ Hrow) as [Hin|Hold]; [|exact Hold].
    exfalso. apply (list_elem_of_fmap_2 fst) in Hin. rewrite Hids in Hin.
    simpl in Hin. apply elem_of_cons in Hin as [?|Hin]; [done|].
    apply elem_of_cons in Hin as [?|Hin]; [done|]. by apply elem_of_nil in Hin.
Defined.

(** ** Histories: lemmas *)

Lemma run_inv ADMIN_PASS (P : Store → Prop) cs st :
  (∀ c st, P st → P (step ADMIN_PASS c st)) → P st → P (run ADMIN_PASS cs st).
Proof.
  intros Hstep. revert st. induction cs as [|c cs IH]; intros st HP; [done|].
  simpl. apply IH. by apply Hstep.
Qed.

Lemma create_rsvp_cases payload now st :
  (attend_ok (_clean (Some (RSVPIn.attend payload))) = false ∧
   create_rsvp payload now st = (Raise BadAttend, st)) ∨
  (attend_ok (_clean (Some (RSVPIn.attend payload))) = true ∧
   create_rsvp payload now st =
   (Ok (sql_insert
          {| r_created_at := now;
             r_name := _clean (Some (RSVPIn.name payload));
             r_contact := _clean (Some (RSVPIn.contact payload));
             r_attend := _clean (Some (RSVPIn.attend payload));
             r_people := RSVPIn.people payload;
             r_memo := _clean (Some (or_empty (RSVPIn.memo payload))) |}
          (rsvp st)).1,
    {| guestbook := guestbook st;
       rsvp := (sql_insert
          {| r_created_at := now;
             r_name := _clean (Some (RSVPIn.name payload));
             r_contact := _clean (Some (RSVPIn.contact payload));
             r_attend := _clean (Some (RSVPIn.attend payload));
             r_people := RSVPIn.people payload;
             r_memo := _clean (Some (or_empty (RSVPIn.memo payload))) |}
          (rsvp st)).2 |})).
Proof.
  unfold create_rsvp.
  destruct (attend_ok _) eqn:Hok; [right | left]; by split.
Qed.

Lemma list_rsvp_store ADMIN_PASS request limit st :
  (list_rsvp ADMIN_PASS request limit st).2 = st.
Proof.
  destruct (admin_guard_cases ADMIN_PASS request) as [Hg|Hg].
  - by rewrite list_rsvp_authorized.
  - by rewrite list_rsvp_unauthorized.
Qed.

(** What a request does to the guestbook table and its counter. *)
Lemma step_guestbook ADMIN_PASS c st :
  table_wf (guestbook st) →
  table_wf (guestbook (step ADMIN_PASS c st)) ∧
  seq (guestbook (step ADMIN_PASS c st)) =
    seq (guestbook st) + (if is_create_guestbook c then 1 else 0).
Proof.
  intros Hwf. destruct c as [p now|limit|id rq|p now|rq limit]; cbn [step is_create_guestbook].
  - rewrite create_guestbook_eq. cbn [snd guestbook].
    split; [by apply sql_insert_wf|].
    destruct (sql_insert_seq
      {| g_created_at := now; g_name := _clean (Some (GuestbookIn.name p));
         g_message := _clean (Some (GuestbookIn.message p)) |} (guestbook st)) as [-> _].
    by apply sql_insert_next.
  - simpl. split; [done|lia].
  - destruct (delete_guestbook_store ADMIN_PASS id rq st) as [-> | ->].
    + split; [done|lia].
    + cbn [guestbook]. split; [by apply sql_delete_wf | simpl; lia].
  - destruct (create_rsvp_cases p now st) as [[_ ->]|[_ ->]]; cbn [snd guestbook];
      (split; [done|lia]).
  - rewrite list_rsvp_store. split; [done|lia].
Qed.

(** What a request does to the rsvp table and its counter. *)
Lemma step_rsvp ADMIN_PASS c st :
  table_wf (rsvp st) →
  table_wf (rsvp (step ADMIN_PASS c st)) ∧
  seq (rsvp (step ADMIN_PASS c st)) =
    seq (rsvp st) + (if is_accepted_rsvp c then 1 else 0).
Proof.
  intros Hwf. destruct c as [p now|limit|id rq|p now|rq limit]; cbn [step is_accepted_rsvp].
  - rewrite create_guestbook_eq. cbn [snd rsvp]. split; [done|lia].
  - simpl. split; [done|lia].
  - destruct (delete_guestbook_store ADMIN_PASS id rq st) as [-> | ->];
      cbn [rsvp]; (split; [done|lia]).
  - destruct (create_rsvp_cases p now st) as [[-> ->]|[-> ->]]; cbn [snd rsvp].
    + split; [done|lia].
    + split; [by apply sql_insert_wf|].
      match goal with |- seq (sql_insert ?r ?t).2 = _ =>
        destruct (sql_insert_seq r t) as [-> _] end.
      by apply sql_insert_next.
  - rewrite list_rsvp_store. split; [done|lia].
Qed.

Lemma count_cons {X} (f : X → bool) x l :
  Z.of_nat (length (List.filter f (x :: l))) =
  (if f x then 1 else 0) + Z.of_nat (length (List.filter f l)).
Proof. simpl. destruct (f x); simpl; lia. Qed.

Lemma run_guestbook ADMIN_PASS cs st :
  table_wf (guestbook st) →
  table_wf (guestbook (run ADMIN_PASS cs st)) ∧
  seq (guestbook (run ADMIN_PASS cs st)) =
    seq (guestbook st) + Z.of_nat (length (List.filter is_create_guestbook cs)).
Proof.
  revert st. induction cs as [|c cs IH]; intros st Hwf.
  - simpl. split; [done|lia].
  - destruct (step_guestbook ADMIN_PASS c st Hwf) as [Hwf' Hseq].
    destruct (IH _ Hwf') as [Hwf'' Hseq'].
    change (run ADMIN_PASS (c :: cs) st) with (run ADMIN_PASS cs (step ADMIN_PASS c st)).
    split; [done|]. rewrite Hseq', Hseq, count_cons. lia.
Qed.

Lemma run_rsvp ADMIN_PASS cs st :
  table_wf (rsvp st) →
  table_wf (rsvp (run ADMIN_PASS cs st)) ∧
  seq (rsvp (run ADMIN_PASS cs st)) =
    seq (rsvp st) + Z.of_nat (length (List.filter is_accepted_rsvp cs)).
Proof.
  revert st. induction cs as [|c cs IH]; intros st Hwf.
  - simpl. split; [done|lia].
  - destruct (step_rsvp ADMIN_PASS c st Hwf) as [Hwf' Hseq].
    destruct (IH _ Hwf') as [Hwf'' Hseq'].
    change (run ADMIN_PASS (c :: cs) st) with (run ADMIN_PASS cs (step ADMIN_PASS c st)).
    split; [done|]. rewrite Hseq', Hseq, count_cons. lia.
Qed.

Lemma step_rows_ok ADMIN_PASS c st : rows_ok st → rows_ok (step ADMIN_PASS c st).
Proof.
  intros [Hg Hr]. destruct c as [p now|limit|id rq|p now|rq limit]; cbn [step].
  - rewrite create_guestbook_eq. split; cbn [snd guestbook rsvp]; [|done].
    intros j r. simpl. intros [[_ <-]|[_ Hj]]%lookup_insert_Some; [|by eapply Hg].
    split; apply clean_normalized.
  - done.
  - destruct (delete_guestbook_store ADMIN_PASS id rq st) as [-> | ->]; [done|].
    split; cbn [guestbook rsvp]; [|done].
    intros j r. simpl. intros [_ Hj]%lookup_delete_Some. by eapply Hg.
  - destruct (create_rsvp_cases p now st) as [[_ ->]|[Hok ->]]; [done|].
    split; cbn [snd guestbook rsvp]; [done|].
    intros j r. simpl. intros [[_ <-]|[_ Hj]]%lookup_insert_Some; [|by eapply Hr].
    repeat split; try apply clean_normalized. by apply attend_ok_elem.
  - by rewrite list_rsvp_store.
Qed.

Lemma run_rsvp_seq ADMIN_PASS cs st :
  seq (rsvp st) ≤ seq (rsvp (run ADMIN_PASS cs st)).
Proof.
  apply (run_inv ADMIN_PASS (λ s, seq (rsvp st) ≤ seq (rsvp s))); [|lia].
  intros c s Hs. etrans; [exact Hs|].
  destruct c as [p now|limit|id rq|p now|rq limit]; cbn [step].
  - rewrite create_guestbook_eq. simpl. lia.
  - simpl. lia.
  - destruct (delete_guestbook_store ADMIN_PASS id rq s) as [-> | ->]; simpl; lia.
  - destruct (create_rsvp_cases p now s) as [[_ ->]|[_ ->]]; simpl; lia.
  - rewrite list_rsvp_store. lia.
Qed.

Lemma clamp_limit_pos dflt hi limit : 1 ≤ clamp_limit dflt hi limit.
Proof. unfold clamp_limit. lia. Qed.

Lemma head_Some_cons {X} (l : list X) x : head l = Some x → ∃ rest, l = x :: rest.
Proof. destruct l as [|y rest]; [done|]. intros [= ->]. by exists rest. Qed.

(** ** Further properties of the handlers *)

(** X4. [create_guestbook] adds one entry under an id the table does
    not hold, and keeps every entry that was there. *)
Theorem create_guestbook_keeps_entries payload now st :
  ∃ id row,
    (create_guestbook payload now st).1 = Ok id ∧
    rows (guestbook st) !! id = None ∧
    rows (guestbook (create_guestbook payload now st).2) =
      <[id := row]> (rows (guestbook st)) ∧
    (∀ j r, rows (guestbook st) !! j = Some r →
            rows (guestbook (create_guestbook payload now st).2) !! j = Some r) ∧
    size (rows (guestbook (create_guestbook payload now st).2)) =
      S (size (rows (guestbook st))).
Proof.
  rewrite create_guestbook_eq. cbn [fst snd guestbook].
  eexists _, _. split; [reflexivity|].
  pose proof (sql_insert_fresh
    {| g_created_at := now; g_name := _clean (Some (GuestbookIn.name payload));
       g_message := _clean (Some (GuestbookIn.message payload)) |} (guestbook st)) as Hf.
  split; [exact Hf|]. split; [reflexivity|]. split.
  - intros j r Hj. simpl. rewrite lookup_insert_ne; [done|].
    intros <-. simpl in Hf. congruence.
  - simpl. by apply map_size_insert_None.
Qed.

(** X5. An entry that passed the length validation is stored with a
    name of at most 60 and a message of at most 800 characters, and
    with the time stamp of the call. *)
Theorem create_guestbook_stored_bounds payload now st :
  GuestbookIn.valid payload = true →
  ∃ id row,
    (create_guestbook payload now st).1 = Ok id ∧
    rows (guestbook (create_guestbook payload now st).2) !! id = Some row ∧
    g_created_at row = now ∧
    (length (g_name row) ≤ 60)%nat ∧ (length (g_message row) ≤ 800)%nat.
Proof.
  unfold GuestbookIn.valid. rewrite !andb_true_iff, !Z.leb_le.
  intros [[[_ Hn] _] Hm].
  rewrite create_guestbook_eq. cbn [fst snd guestbook].
  eexists _, _. split; [reflexivity|]. split; [apply sql_insert_lookup|].
  cbn [g_created_at g_name g_message]. split; [done|].
  pose proof (clean_length (GuestbookIn.name payload)).
  pose proof (clean_length (GuestbookIn.message payload)).
  lia.
Qed.

Lemma ann_stored_bounds :
  ∃ id row,
    (create_guestbook ann (lit "t0") init_db).1 = Ok id ∧
    rows (guestbook (create_guestbook ann (lit "t0") init_db).2) !! id = Some row ∧
    g_created_at row = lit "t0" ∧
    (length (g_name row) ≤ 60)%nat ∧ (length (g_message row) ≤ 800)%nat.
Proof. apply (create_guestbook_stored_bounds ann (lit "t0") init_db). reflexivity. Defined.

(** X6. A valid RSVP whose normalized [attend] is in the closed set is
    stored under a fresh id with its text fields normalized and within
    their length bounds, [attend] in the closed set, [people] between 1
    and 20 as sent, and an empty memo when none was sent. *)
Theorem create_rsvp_stored payload now st :
  RSVPIn.valid payload = true →
  _clean (Some (RSVPIn.attend payload)) ∈ [lit "yes"; lit "maybe"; lit "no"] →
  ∃ id row,
    (create_rsvp payload now st).1 = Ok id ∧
    rows (rsvp st) !! id = None ∧
    rows (rsvp (create_rsvp payload now st).2) !! id = Some row ∧
    r_created_at row = now ∧
    r_name row = _clean (Some (RSVPIn.name payload)) ∧
    r_contact row = _clean (Some (RSVPIn.contact payload)) ∧
    r_attend row ∈ [lit "yes"; lit "maybe"; lit "no"] ∧
    r_people row = RSVPIn.people payload ∧ 1 ≤ r_people row ≤ 20 ∧
    (RSVPIn.memo payload = None → r_memo row = []) ∧
    (∀ m, RSVPIn.memo payload = Some m → r_memo row = _clean (Some m)) ∧
    (length (r_name row) ≤ 60)%nat ∧ (length (r_contact row) ≤ 80)%nat ∧
    (length (r_memo row) ≤ 300)%nat.
Proof.
  unfold RSVPIn.valid. rewrite !andb_true_iff, !Z.leb_le.
  intros [[[[[[[[_ Hn] _] Hc] _] _] Hp1] Hp2] Hm] Hok%attend_ok_elem.
  destruct (create_rsvp_cases payload now st) as [[Hno _]|[_ ->]]; [congruence|].
  cbn [fst snd rsvp]. eexists _, _. split; [reflexivity|].
  split; [apply sql_insert_fresh|]. split; [apply sql_insert_lookup|].
  cbn [r_created_at r_name r_contact r_attend r_people r_memo].
  pose proof (clean_length (RSVPIn.name payload)).
  pose proof (clean_length (RSVPIn.contact payload)).
  pose proof (clean_length (or_empty (RSVPIn.memo payload))).
  repeat split; try done; try lia.
  - by apply attend_ok_elem.
  - by intros ->.
  - by intros m ->.
  - destruct (RSVPIn.memo payload) as [m|]; simpl in *; [|lia].
    apply Z.leb_le in Hm. lia.
Qed.

Lemma cleo_rsvp_stored :
  ∃ id row,
    (create_rsvp (rsvp_of "yes") (lit "t2") two_entries).1 = Ok id ∧
    rows (rsvp (create_rsvp (rsvp_of "yes") (lit "t2") two_entries).2) !! id = Some row ∧
    r_memo row = [] ∧ r_people row = 2.
Proof.
  destruct (create_rsvp_stored (rsvp_of "yes") (lit "t2") two_entries)
    as (id & row & H1 & _ & H2 & _ & _ & _ & _ & H3 & _ & H4 & _).
  - reflexivity.
  - apply attend_ok_elem. by vm_compute.
  - exists id, row. split; [exact H1|]. split; [exact H2|].
    split; [by apply H4 | exact H3].
Defined.

(** X7. The entry just created is the first of the next guestbook
    listing, with its normalized fields, whatever the limit. *)
Theorem create_then_list_guestbook payload now st limit :
  ∃ id rest,
    (create_guestbook payload now st).1 = Ok id ∧
    (list_guestbook limit (create_guestbook payload now st).2).1 =
      Ok ((id, {| g_created_at := now;
                  g_name := _clean (Some (GuestbookIn.name payload));
                  g_message := _clean (Some (GuestbookIn.message payload)) |}) :: rest).
Proof.
  rewrite create_guestbook_eq. cbn [fst snd]. unfold list_guestbook. cbn [fst guestbook].
  set (row := {| g_created_at := now |}).
  destruct (head_Some_cons _ _
    (sql_select_desc_insert_head row (guestbook st) (clamp_limit 100 500 limit)
       (clamp_limit_pos 100 500 limit))) as [rest Hrest].
  exists (sql_insert row (guestbook st)).1, rest. split; [done|].
  by rewrite Hrest.
Qed.

(** X8. An RSVP just accepted is the first row of the next authorized
    RSVP listing. *)
Theorem create_then_list_rsvp ADMIN_PASS payload now st request limit id :
  (create_rsvp payload now st).1 = Ok id →
  _admin_guard ADMIN_PASS request = Ok tt →
  ∃ rest,
    (list_rsvp ADMIN_PASS request limit (create_rsvp payload now st).2).1 =
      Ok ((id, {| r_created_at := now;
                  r_name := _clean (Some (RSVPIn.name payload));
                  r_contact := _clean (Some (RSVPIn.contact payload));
                  r_attend := _clean (Some (RSVPIn.attend payload));
                  r_people := RSVPIn.people payload;
                  r_memo := _clean (Some (or_empty (RSVPIn.memo payload))) |}) :: rest).
Proof.
  intros Hid Hg. rewrite list_rsvp_authorized by done. cbn [fst].
  destruct (create_rsvp_cases payload now st) as [[_ He]|[_ He]];
    rewrite He in Hid |- *; [done|].
  cbn [fst snd rsvp] in *. injection Hid as <-.
  match goal with |- context [sql_insert ?r (rsvp st)] => set (row := r) end.
  destruct (head_Some_cons _ _
    (sql_select_desc_insert_head row (rsvp st) (clamp_limit 300 1000 limit)
       (clamp_limit_pos 300 1000 limit))) as [rest Hrest].
  exists rest. by rewrite Hrest.
Qed.

Lemma cleo_listed_first :
  ∃ rest,
    (list_rsvp secret (with_header "0718") (Some 1)
       (create_rsvp (rsvp_of "maybe") (lit "t3") one_rsvp).2).1 =
      Ok ((2, {| r_created_at := lit "t3"; r_name := lit "Cleo";
                 r_contact := lit "cleo@example.org"; r_attend := lit "maybe";
                 r_people := 2; r_memo := [] |}) :: rest).
Proof.
  apply (create_then_list_rsvp secret (rsvp_of "maybe") (lit "t3") one_rsvp
           (with_header "0718") (Some 1) 2); by vm_compute.
Defined.

(** X9. Whatever the request, [delete_guestbook] leaves every entry with
    another id as it was and never adds one; in a store whose ids fit
    SQLite's integers, after an authorized delete the id is in no
    listing. *)
Theorem delete_guestbook_only_that_id ADMIN_PASS item_id request st :
  (∀ j, j ≠ item_id →
     rows (guestbook (delete_guestbook ADMIN_PASS item_id request st).2) !! j =
     rows (guestbook st) !! j) ∧
  (∀ j r,
     rows (guestbook (delete_guestbook ADMIN_PASS item_id request st).2) !! j = Some r →
     rows (guestbook st) !! j = Some r) ∧
  (int64_ids (guestbook st) = true →
   _admin_guard ADMIN_PASS request = Ok tt →
   ∀ limit items,
     (list_guestbook limit (delete_guestbook ADMIN_PASS item_id request st).2).1 = Ok items →
     item_id ∉ items.*1).
Proof.
  split; [|split].
  - intros j Hne.
    destruct (delete_guestbook_store ADMIN_PASS item_id request st) as [-> | ->]; [done|].
    simpl. by rewrite lookup_delete_ne.
  - intros j r.
    destruct (delete_guestbook_store ADMIN_PASS item_id request st) as [-> | ->]; [done|].
    simpl. by intros [_ ?]%lookup_delete_Some.
  - intros Hids Hg limit items Hitems.
    intros ([j r] & -> & Hin)%list_elem_of_fmap.
    unfold list_guestbook in Hitems. cbn [fst] in Hitems. injection Hitems as <-.
    pose proof (clamp_limit_pos 100 500 limit) as Hpos.
    apply sql_select_desc_spec in Hin; [|lia]. simpl in Hin.
    destruct (in_int64 j) eqn:Hj.
    + rewrite delete_guestbook_authorized in Hin by done. simpl in Hin.
      by rewrite lookup_delete_eq in Hin.
    + rewrite delete_guestbook_overflow in Hin by done. simpl in Hin.
      unfold int64_ids in Hids. rewrite forallb_forall in Hids.
      apply elem_of_map_to_list, list_elem_of_In, Hids in Hin. simpl in Hin. congruence.
Qed.

Lemma deleted_entry_not_listed :
  1 ∉ match (list_guestbook None
               (delete_guestbook secret 1 (with_header "0718") two_entries).2).1 with
      | Ok items => items.*1
      | Raise _ => []
      end.
Proof.
  destruct (delete_guestbook_only_that_id secret 1 (with_header "0718") two_entries)
    as (_ & _ & H).
  by apply (H eq_refl eq_refl None).
Defined.

(** X10. With a missing, empty or wrong token [delete_guestbook] raises
    401 and leaves the store as it was, whether or not the id exists. *)
Theorem unauthorized_delete_keeps_store ADMIN_PASS item_id request st :
  admin_token request = None ∨ admin_token request = Some [] ∨
    admin_token request ≠ Some ADMIN_PASS →
  delete_guestbook ADMIN_PASS item_id request st = (Raise Unauthorized, st).
Proof.
  intros Hbad. apply delete_guestbook_unauthorized, admin_guard_Raise.
  destruct Hbad as [H|[H|H]]; [left|left|by right]; rewrite H; simpl; tauto.
Qed.

Lemma delete_without_token :
  delete_guestbook secret 1 {| headers := ∅; query_params := ∅ |} two_entries =
  (Raise Unauthorized, two_entries).
Proof.
  apply (unauthorized_delete_keeps_store secret 1
           {| headers := ∅; query_params := ∅ |} two_entries).
  by left.
Defined.

(** X11. The guard lets a request through exactly when its token, the
    non-empty header or else the query parameter, equals the secret and
    the secret is not empty; otherwise it raises 401.  With an empty
    secret no request passes. *)
Theorem admin_guard_exact ADMIN_PASS request :
  (_admin_guard ADMIN_PASS request = Ok tt ↔
   admin_token request = Some ADMIN_PASS ∧ ADMIN_PASS ≠ []) ∧
  (_admin_guard ADMIN_PASS request ≠ Ok tt →
   _admin_guard ADMIN_PASS request = Raise Unauthorized) ∧
  (ADMIN_PASS = [] → _admin_guard ADMIN_PASS request = Raise Unauthorized).
Proof.
  split; [apply admin_guard_Ok|]. split.
  - by destruct (admin_guard_cases ADMIN_PASS request).
  - intros ->. destruct (admin_guard_cases [] request) as [Hg|Hg]; [|done].
    by apply admin_guard_Ok in Hg as [_ ?].
Qed.

Lemma guard_with_empty_secret :
  _admin_guard [] (with_both "" "") = Raise Unauthorized.
Proof.
  destruct (admin_guard_exact [] (with_both "" "")) as (_ & _ & H).
  by apply H.
Defined.

(** X12. A guestbook listing holds as many rows as the smaller of the
    effective limit and the size of the table; a row it leaves out is
    older than every row it holds.  The same goes for an authorized RSVP
    listing. *)
Theorem listing_is_the_newest :
  (∀ limit st items,
     (list_guestbook limit st).1 = Ok items →
     Z.of_nat (length items) =
       Z.min (clamp_limit 100 500 limit) (Z.of_nat (size (rows (guestbook st)))) ∧
     ∀ id row, rows (guestbook st) !! id = Some row →
       (id, row) ∈ items ∨ ∀ x, x ∈ items → id < x.1) ∧
  (∀ ADMIN_PASS request limit st items,
     (list_rsvp ADMIN_PASS request limit st).1 = Ok items →
     Z.of_nat (length items) =
       Z.min (clamp_limit 300 1000 limit) (Z.of_nat (size (rows (rsvp st)))) ∧
     ∀ id row, rows (rsvp st) !! id = Some row →
       (id, row) ∈ items ∨ ∀ x, x ∈ items → id < x.1).
Proof.
  assert (Hpos : ∀ d h l, 0 ≤ clamp_limit d h l).
  { intros. pose proof (clamp_limit_pos d h l). lia. }
  split.
  - intros limit st items [= <-]. split; [by apply sql_select_desc_length|].
    intros id row Hrow.
    destruct (sql_select_desc_complete (clamp_limit 100 500 limit) (guestbook st)
                id row (Hpos _ _ _) Hrow) as [?|[_ ?]]; auto.
  - intros AP rq limit st items.
    destruct (admin_guard_cases AP rq) as [Hg|Hg].
    + rewrite list_rsvp_authorized by done. intros [= <-].
      split; [by apply sql_select_desc_length|].
      intros id row Hrow.
      destruct (sql_select_desc_complete (clamp_limit 300 1000 limit) (rsvp st)
                  id row (Hpos _ _ _) Hrow) as [?|[_ ?]]; auto.
    + by rewrite list_rsvp_unauthorized.
Qed.

Lemma listing_of_one_is_the_newest :
  (list_guestbook (Some 1) two_entries).1 =
    Ok [(2, {| g_created_at := lit "t1"; g_name := lit "Bob";
               g_message := lit "Woof woof" |})] ∧
  Z.of_nat 1 = Z.min (clamp_limit 100 500 (Some 1))
                     (Z.of_nat (size (rows (guestbook two_entries)))).
Proof.
  assert (H : (list_guestbook (Some 1) two_entries).1 =
    Ok [(2, {| g_created_at := lit "t1"; g_name := lit "Bob";
               g_message := lit "Woof woof" |})]) by (vm_compute; reflexivity).
  split; [exact H|].
  destruct listing_is_the_newest as [Hl _].
  by destruct (Hl (Some 1) two_entries _ H) as [Hlen _].
Defined.

(** X13. Starting from the empty database, the guestbook entry created
    after [n] earlier ones gets id [n + 1], whatever was deleted, listed
    or sent as RSVP in between. *)
Theorem guestbook_ids_count ADMIN_PASS history payload now :
  (create_guestbook payload now (run ADMIN_PASS history init_db)).1 =
  Ok (Z.of_nat (length (List.filter is_create_guestbook history)) + 1).
Proof.
  destruct (run_guestbook ADMIN_PASS history init_db empty_table_wf) as [Hwf Hseq].
  rewrite create_guestbook_eq. cbn [fst].
  rewrite (sql_insert_next _ _ Hwf), Hseq. simpl. f_equal; lia.
Qed.

(** X14. Starting from the empty database, an accepted RSVP gets the
    number of RSVPs accepted before it, plus one, as its id; rejected
    ones use up no id. *)
Theorem rsvp_ids_count ADMIN_PASS history payload now id :
  (create_rsvp payload now (run ADMIN_PASS history init_db)).1 = Ok id →
  id = Z.of_nat (length (List.filter is_accepted_rsvp history)) + 1.
Proof.
  destruct (run_rsvp ADMIN_PASS history init_db empty_table_wf) as [Hwf Hseq].
  destruct (create_rsvp_cases payload now (run ADMIN_PASS history init_db))
    as [[_ ->]|[_ ->]]; [done|].
  cbn [fst]. rewrite (sql_insert_next _ _ Hwf), Hseq. simpl. intros [= <-]. lia.
Qed.

Lemma rsvp_after_a_rejected_one :
  (create_rsvp (rsvp_of "no") (lit "t3")
     (run secret [CreateRSVP (rsvp_of "yes") (lit "t0");
                  CreateRSVP (rsvp_of "YES") (lit "t1");
                  CreateGuestbook ann (lit "t2")] init_db)).1 = Ok 2 ∧
  2 = Z.of_nat (length (List.filter is_accepted_rsvp
        [CreateRSVP (rsvp_of "yes") (lit "t0");
         CreateRSVP (rsvp_of "YES") (lit "t1");
         CreateGuestbook ann (lit "t2")])) + 1.
Proof.
  assert (H : (create_rsvp (rsvp_of "no") (lit "t3")
     (run secret [CreateRSVP (rsvp_of "yes") (lit "t0");
                  CreateRSVP (rsvp_of "YES") (lit "t1");
                  CreateGuestbook ann (lit "t2")] init_db)).1 = Ok 2)
    by (vm_compute; reflexivity).
  split; [exact H|]. exact (rsvp_ids_count secret _ _ _ 2 H).
Defined.

(** X15. In every store reached from the empty database, the ids of
    each table lie between 1 and its counter, every stored text field is
    in normal form, and every stored [attend] is one of ["yes"],
    ["maybe"], ["no"]. *)
Theorem reachable_rows_ok ADMIN_PASS history :
  table_wf (guestbook (run ADMIN_PASS history init_db)) ∧
  table_wf (rsvp (run ADMIN_PASS history init_db)) ∧
  rows_ok (run ADMIN_PASS history init_db).
Proof.
  split; [apply run_guestbook, empty_table_wf|].
  split; [apply run_rsvp, empty_table_wf|].
  apply run_inv; [apply step_rows_ok|].
  split; intros id r; simpl; by rewrite lookup_empty.
Qed.

(** X16. Of two accepted RSVPs, whatever requests are served between
    them, the later gets the greater id. *)
Theorem rsvp_ids_increase ADMIN_PASS p1 now1 st between p2 now2 id1 id2 :
  (create_rsvp p1 now1 st).1 = Ok id1 →
  (create_rsvp p2 now2 (run ADMIN_PASS between (create_rsvp p1 now1 st).2)).1 = Ok id2 →
  id1 < id2.
Proof.
  destruct (create_rsvp_cases p1 now1 st) as [[_ ->]|[_ ->]]; [done|].
  cbn [fst snd]. intros [= <-].
  match goal with |- context [run _ _ ?s] => set (st1 := s) end.
  destruct (create_rsvp_cases p2 now2 (run ADMIN_PASS between st1)) as [[_ ->]|[_ ->]];
    [done|].
  cbn [fst]. intros [= <-].
  pose proof (run_rsvp_seq ADMIN_PASS between st1) as Hrun.
  change (seq (rsvp st1))
    with (seq (rsvp st) `max` max_rowid (rows (rsvp st)) + 1) in Hrun.
  lia.
Qed.

Lemma two_rsvps_increase :
  (create_rsvp (rsvp_of "yes") (lit "t0") init_db).1 = Ok 1 ∧
  (create_rsvp (rsvp_of "no") (lit "t1")
     (run secret [DeleteGuestbook 1 (with_header "0718")]
        (create_rsvp (rsvp_of "yes") (lit "t0") init_db).2)).1 = Ok 2 ∧
  1 < 2.
Proof.
  assert (H1 : (create_rsvp (rsvp_of "yes") (lit "t0") init_db).1 = Ok 1)
    by (vm_compute; reflexivity).
  assert (H2 : (create_rsvp (rsvp_of "no") (lit "t1")
     (run secret [DeleteGuestbook 1 (with_header "0718")]
        (create_rsvp (rsvp_of "yes") (lit "t0") init_db).2)).1 = Ok 2)
    by (vm_compute; reflexivity).
  split; [exact H1|]. split; [exact H2|].
  exact (rsvp_ids_increase secret _ _ _ _ _ _ 1 2 H1 H2).
Defined.

(** ** Cross-origin configuration: lemmas *)

Lemma strip_nil_blank s : strip s = [] ↔ blank s.
Proof.
  unfold strip. split.
  - intros H. destruct (rstrip_decomp (lstrip s)) as [suf [Hb He]].
    rewrite H in He. simpl in He.
    destruct (lstrip s) as [|c t] eqn:E.
    + destruct (lstrip_decomp s) as [pre [Hp Hs]]. rewrite E, app_nil_r in Hs.
      by rewrite Hs.
    + assert (is_space c = false) by (apply (lstrip_head s); by rewrite E).
      rewrite <- He in Hb. apply Forall_cons in Hb as [Hc _]. congruence.
  - intros Hb. by rewrite lstrip_blank.
Qed.

Lemma strip_strip s : strip (strip s) = strip s.
Proof.
  unfold strip at 1. rewrite lstrip_id by apply strip_head.
  apply rstrip_id, strip_last.
Qed.

Lemma strip_subseteq s c : c ∈ strip s → c ∈ s.
Proof.
  unfold strip. intros Hc.
  destruct (rstrip_decomp (lstrip s)) as [suf [_ He]].
  destruct (lstrip_decomp s) as [pre [_ Hs]].
  rewrite Hs, He. rewrite !elem_of_app. auto.
Qed.

Lemma split_on_from_nosep sep cur p rest :
  sep ∉ p →
  split_on_from sep cur (p ++ rest) = split_on_from sep (cur ++ p) rest.
Proof.
  revert cur. induction p as [|c t IH]; intros cur Hp; simpl.
  - by rewrite app_nil_r.
  - apply not_elem_of_cons in Hp as [Hc Ht].
    destruct (N.eqb_spec c sep) as [->|_]; [done|].
    rewrite IH by done. by rewrite <- app_assoc.
Qed.

(** Splitting what was joined gives the pieces back. *)
Lemma split_on_join sep cur p ps :
  Forall (λ q, sep ∉ q) (p :: ps) →
  split_on_from sep cur (join [sep] (p :: ps)) = (cur ++ p) :: ps.
Proof.
  revert cur p. induction ps as [|q qs IH]; intros cur p Hall.
  - apply Forall_cons in Hall as [Hp _]. simpl.
    rewrite <- (app_nil_r p) at 1. by rewrite split_on_from_nosep.
  - apply Forall_cons in Hall as [Hp Hq].
    rewrite join_cons by done. rewrite split_on_from_nosep by done.
    change ([sep] ++ ?x) with (sep :: x). cbn [split_on_from].
    rewrite N.eqb_refl. by rewrite IH.
Qed.

Lemma split_on_from_nonempty sep cur s : split_on_from sep cur s ≠ [].
Proof.
  revert cur. induction s as [|c t IH]; intros cur; simpl; [done|].
  destruct (c =? sep)%N; [done | apply IH].
Qed.

(** Joining the pieces of a split gives the string back. *)
Lemma join_split_on sep cur s :
  join [sep] (split_on_from sep cur s) = cur ++ s.
Proof.
  revert cur. induction s as [|c t IH]; intros cur; simpl.
  - by rewrite app_nil_r.
  - destruct (N.eqb_spec c sep) as [->|_].
    + rewrite join_cons by apply split_on_from_nonempty. by rewrite IH.
    + rewrite IH. by rewrite <- app_assoc.
Qed.

Lemma split_on_from_pieces sep cur s :
  sep ∉ cur → Forall (λ q, sep ∉ q) (split_on_from sep cur s).
Proof.
  revert cur. induction s as [|c t IH]; intros cur Hcur; simpl.
  - by repeat constructor.
  - destruct (N.eqb_spec c sep) as [->|Hne].
    + constructor; [done|]. apply IH. apply not_elem_of_nil.
    + apply IH. intros [Hin| ->%list_elem_of_singleton]%elem_of_app;
        [by apply Hcur | done].
Qed.

Lemma join_elem sep ps c :
  c ∈ join [sep] ps ↔ (c = sep ∧ (2 ≤ length ps)%nat) ∨ ∃ p, p ∈ ps ∧ c ∈ p.
Proof.
  induction ps as [|p ps IH].
  - simpl. rewrite elem_of_nil. split; [done|].
    intros [[_ ?]|(p & Hp & _)]; [lia | by apply elem_of_nil in Hp].
  - destruct ps as [|q qs].
    + simpl. split.
      * intros Hc. right. exists p. split; [by left | done].
      * intros [[_ ?]|(p' & Hp & Hc)]; [simpl in *; lia|].
        by apply list_elem_of_singleton in Hp as ->.
    + rewrite join_cons by done.
      rewrite !elem_of_app, list_elem_of_singleton, IH. split.
      * intros [Hc|[->|[[-> _]|(p' & Hp & Hc)]]].
        -- right. exists p. split; [by left | done].
        -- left. split; [done | simpl; lia].
        -- left. split; [done | simpl; lia].
        -- right. exists p'. split; [by right | done].
      * intros [[-> _]|(p' & Hp & Hc)]; [auto|].
        apply elem_of_cons in Hp as [->|Hp]; [auto|].
        right. right. right. by exists p'.
Qed.

Lemma origins_elem s o :
  o ∈ origins s ↔ ∃ p, p ∈ split_on COMMA s ∧ o = strip p ∧ strip p ≠ [].
Proof.
  unfold origins. rewrite list_elem_of_fmap. split.
  - intros (p & -> & Hp). apply list_elem_of_In, List.filter_In in Hp as [Hp Hne].
    exists p. split; [by apply list_elem_of_In|]. split; [done|].
    by destruct (strip p).
  - intros (p & Hp & -> & Hne). exists p. split; [done|].
    apply list_elem_of_In, List.filter_In. split; [by apply list_elem_of_In|].
    by destruct (strip p).
Qed.

(** ** Properties of the cross-origin configuration *)

(** X17. Every configured origin is non-empty, has no whitespace at
    either end and holds no comma.  The list given to the middleware is
    never empty: it is the configured origins, or ["*"] alone when there
    are none, which is exactly when the setting holds nothing but commas
    and whitespace. *)
Theorem origins_are_clean (ALLOWED_ORIGINS : str) :
  Forall origin (origins ALLOWED_ORIGINS) ∧
  allow_origins ALLOWED_ORIGINS ≠ [] ∧
  (origins ALLOWED_ORIGINS ≠ [] →
   allow_origins ALLOWED_ORIGINS = origins ALLOWED_ORIGINS) ∧
  (allow_origins ALLOWED_ORIGINS = [lit "*"] ∧ origins ALLOWED_ORIGINS = [] ↔
   Forall (λ c, is_space c = true ∨ c = COMMA) ALLOWED_ORIGINS).
Proof.
  split; [|split; [|split]].
  - apply Forall_forall. intros o (p & Hp & -> & Hne)%origins_elem.
    split; [done|]. split; [apply strip_strip|].
    intros Hc%strip_subseteq.
    pose proof (split_on_from_pieces COMMA [] ALLOWED_ORIGINS (not_elem_of_nil _)) as Hall.
    rewrite Forall_forall in Hall. by apply (Hall p).
  - unfold allow_origins. by destruct (origins ALLOWED_ORIGINS).
  - unfold allow_origins. by destruct (origins ALLOWED_ORIGINS).
  - assert (Hnil : origins ALLOWED_ORIGINS = [] ↔
              Forall (λ c, is_space c = true ∨ c = COMMA) ALLOWED_ORIGINS).
    { pose proof (join_split_on COMMA [] ALLOWED_ORIGINS) as Hj. simpl in Hj.
      split.
      - intros Ho. apply Forall_forall. intros c Hc.
        rewrite <- Hj in Hc. apply join_elem in Hc as [[-> _]|(p & Hp & Hc)]; [by right|].
        left. destruct (strip p) as [|d t] eqn:E.
        + apply strip_nil_blank in E. rewrite Forall_forall in E. by apply E.
        + assert (strip p ∈ origins ALLOWED_ORIGINS) as Hin.
          { apply origins_elem. exists p. split; [done|]. split; [done|].
            by rewrite E. }
          rewrite Ho in Hin. by apply elem_of_nil in Hin.
      - intros Hall. destruct (origins ALLOWED_ORIGINS) as [|o os] eqn:E; [done|].
        exfalso. assert (o ∈ origins ALLOWED_ORIGINS) as Hin by (rewrite E; by left).
        apply origins_elem in Hin as (p & Hp & -> & Hne).
        apply Hne, strip_nil_blank, Forall_forall. intros c Hc.
        rewrite Forall_forall in Hall.
        destruct (Hall c) as [?| ->]; [|done|].
        + rewrite <- Hj. apply join_elem. right. by exists p.
        + pose proof (split_on_from_pieces COMMA [] ALLOWED_ORIGINS (not_elem_of_nil _)) as Hp'.
          rewrite Forall_forall in Hp'. by destruct (Hp' p Hp). }
    rewrite <- Hnil. unfold allow_origins. split; [by intros [_ ?]|].
    by intros ->.
Qed.

(** X18. A list of origins written out with commas between them is read
    back as that list. *)
Theorem origins_round_trip (os : list str) :
  Forall origin os → origins (join [COMMA] os) = os.
Proof.
  intros Hall. destruct os as [|o os]; [done|].
  unfold origins, split_on. rewrite split_on_join.
  - simpl app. induction Hall as [|p ps (Hne & Hs & _) _ IH]; [done|].
    cbn [List.filter]. rewrite Hs. destruct p as [|c t]; [done|].
    cbn [nonempty]. rewrite fmap_cons, Hs. by f_equal.
  - apply Forall_impl with (1 := Hall). by intros p (_ & _ & ?).
Qed.

Lemma two_origins_round_trip :
  origins (lit "https://a.example,http://localhost:8000") =
  [lit "https://a.example"; lit "http://localhost:8000"].
Proof.
  apply (origins_round_trip [lit "https://a.example"; lit "http://localhost:8000"]).
  apply Forall_cons; split; [|apply Forall_cons; split; [|constructor]];
    (split; [done|]; split; [by vm_compute|]);
    apply (bool_decide_unpack _); by vm_compute.
Defined.

Example origins_spaced :
  origins (lit " https://a.example , ,http://localhost:8000,") =
  [lit "https://a.example"; lit "http://localhost:8000"] ∧
  allow_origins (lit " , ") = [lit "*"].
Proof. by vm_compute. Qed.

(** ** Acceptance of [attend] and independence of the tables *)

Lemma collapse_solid_id u : solid (collapse_runs u) → collapse_runs u = u.
Proof.
  induction u as [|c t IH]; [done|].
  destruct (is_space c) eqn:Hc.
  - destruct t as [|d t'].
    + cbn [collapse_runs]. rewrite Hc. intros [Hsp _]%Forall_cons.
      by rewrite is_space_SP in Hsp.
    + destruct (is_space d) eqn:Hd.
      * rewrite collapse_space_space by done. intros Hs.
        rewrite (IH Hs) in Hs. apply Forall_cons in Hs as [Hd' _]. congruence.
      * rewrite collapse_space_solid by done. intros [Hsp _]%Forall_cons.
        by rewrite is_space_SP in Hsp.
  - rewrite collapse_solid by done. intros [_ Hs]%Forall_cons. by rewrite IH.
Qed.

(** The strings that normalize to a given word are the word with
    whitespace around it. *)
Lemma clean_word a w :
  word w →
  _clean (Some a) = w ↔ ∃ pre suf, blank pre ∧ blank suf ∧ a = pre ++ w ++ suf.
Proof.
  intros [Hne Hw]. split.
  - intros Hc. rewrite clean_eq_normalize_spec in Hc. simpl in Hc.
    rewrite strip_collapse in Hc.
    assert (Hs : strip a = w).
    { rewrite <- Hc. symmetry. apply collapse_solid_id. by rewrite Hc. }
    destruct (lstrip_decomp a) as [pre [Hpre Ha]].
    destruct (rstrip_decomp (lstrip a)) as [suf [Hsuf Hl]].
    exists pre, suf. split; [done|]. split; [done|].
    rewrite Ha at 1. f_equal. rewrite Hl at 1. by rewrite <- Hs.
  - intros (pre & suf & Hpre & Hsuf & ->).
    rewrite clean_split. simpl or_empty. unfold split.
    rewrite split_from_blank_app, split_from_solid by done.
    rewrite split_from_blank by done. simpl. by rewrite flush_ne.
Qed.

Lemma attend_words w : w ∈ [lit "yes"; lit "maybe"; lit "no"] → word w.
Proof.
  rewrite !elem_of_cons, elem_of_nil.
  intros [->|[->|[->|[]]]]; (split; [done|]); repeat constructor.
Qed.

(** X19. [create_rsvp] accepts a payload exactly when its [attend] is
    ["yes"], ["maybe"] or ["no"] with nothing but whitespace before and
    after it. *)
Theorem create_rsvp_accepts payload now st :
  (∃ id, (create_rsvp payload now st).1 = Ok id) ↔
  ∃ pre w suf,
    blank pre ∧ blank suf ∧ w ∈ [lit "yes"; lit "maybe"; lit "no"] ∧
    RSVPIn.attend payload = pre ++ w ++ suf.
Proof.
  split.
  - intros [id Hid].
    destruct (create_rsvp_cases payload now st) as [[_ He]|[Hok _]];
      [by rewrite He in Hid|].
    apply attend_ok_elem in Hok.
    destruct (proj1 (clean_word (RSVPIn.attend payload) _ (attend_words _ Hok)) eq_refl)
      as (pre & suf & Hpre & Hsuf & Ha).
    by exists pre, (_clean (Some (RSVPIn.attend payload))), suf.
  - intros (pre & w & suf & Hpre & Hsuf & Hw & Ha).
    assert (Hc : _clean (Some (RSVPIn.attend payload)) = w).
    { apply clean_word; [by apply attend_words|]. by exists pre, suf. }
    destruct (create_rsvp_cases payload now st) as [[Hno _]|[_ ->]]; [|by eexists].
    rewrite Hc in Hno. apply attend_ok_elem in Hw. congruence.
Qed.

Lemma padded_yes_accepted :
  ∃ id, (create_rsvp (rsvp_of "  yes ") (lit "t0") init_db).1 = Ok id.
Proof.
  apply (create_rsvp_accepts (rsvp_of "  yes ") (lit "t0") init_db).
  exists (lit "  "), (lit "yes"), (lit " ").
  split; [by repeat constructor|]. split; [by repeat constructor|].
  split; [by left | reflexivity].
Defined.

(** X20. Signing the guestbook and sending an RSVP do not interfere:
    in either order they return the same results and leave the same
    store. *)
Theorem guestbook_rsvp_commute p now1 q now2 st :
  (create_rsvp q now2 (create_guestbook p now1 st).2).1 = (create_rsvp q now2 st).1 ∧
  (create_guestbook p now1 (create_rsvp q now2 st).2).1 = (create_guestbook p now1 st).1 ∧
  (create_rsvp q now2 (create_guestbook p now1 st).2).2 =
  (create_guestbook p now1 (create_rsvp q now2 st).2).2.
Proof.
  rewrite !create_guestbook_eq. cbn [fst snd].
  destruct (create_rsvp_cases q now2 st) as [[Hno ->]|[Hok ->]].
  - rewrite create_rsvp_rejected by done. by cbn [fst snd].
  - match goal with |- context [create_rsvp q now2 ?s] =>
      destruct (create_rsvp_cases q now2 s) as [[Hno _]|[_ ->]] end; [congruence|].
    by cbn [fst snd guestbook rsvp].
Qed.
